(** * caesar.py: substitution ciphers over whitespace-delimited tokens

    A shallow embedding of [src/caesar.py]: the [Cipher] base class with its
    memoising [encrypt]/[decrypt] methods, and the two subclasses [Caesar]
    and [Unicode_Substitution].

    Conventions.
    - A Python [str] is a list of code points ([Z]); [ord] is the identity
      on a one-character string and [chr] raises [ValueError] outside
      [range(0x110000)].
    - Python's [%] with a positive right operand is [Z.modulo].
    - A raised exception is the left injection of [result]. *)

From Stdlib Require Import ZArith List Bool Lia Ascii String.
Import ListNotations.
Local Open Scope Z_scope.

(** ** Python values and exceptions *)

Definition char := Z.
Definition str := list char.

Inductive exn : Type :=
| AssertionError (msg : string)
| RuntimeError (msg : string)
| NotImplementedError
| ValueError
| TypeError
| AttributeError.

Definition result (A : Type) : Type := (exn + A)%type.

Definition ret {A : Type} (a : A) : result A := inr a.
Definition raise {A : Type} (e : exn) : result A := inl e.
Definition bind {A B : Type} (m : result A) (f : A -> result B) : result B :=
  match m with
  | inl e => inl e
  | inr a => f a
  end.

Notation "x <- m ;; k" := (bind m (fun x => k))
  (at level 61, m at next level, right associativity).

(** The argument [n] of the constructors is an arbitrary Python object; the
    ones a caller may plausibly pass are told apart here.  A float is kept
    as mantissa and binary exponent ([1.5] is [VFloat 3 (-1)]); [True] and
    [False] are instances of [int] and behave as [VInt 1] and [VInt 0]. *)
Inductive value : Type :=
| VInt (i : Z)
| VFloat (mantissa exponent : Z)
| VStr (s : str)
| VNone.

Definition isinstance_int (v : value) : bool :=
  match v with
  | VInt _ => true
  | _ => false
  end.

(** The integer an [int] object stands for; arithmetic and comparison with
    another kind of object are not modelled beyond their [TypeError]. *)
Definition int_value (v : value) : result Z :=
  match v with
  | VInt i => ret i
  | _ => raise TypeError
  end.

(** [assert b, msg], as the interpreter runs it without [-O]. *)
Definition assert (b : bool) (msg : string) : result unit :=
  if b then ret tt else raise (AssertionError msg).

Definition ord (c : char) : Z := c.

Definition chr (i : Z) : result char :=
  if (0 <=? i) && (i <? 1114112) then ret i else raise ValueError.

(** Code points of one-character literals, from ASCII. *)
Definition lit (a : Ascii.ascii) : char := Z.of_N (Ascii.N_of_ascii a).

(** A string literal as a Python [str]. *)
Definition of_string (s : string) : str := map lit (list_ascii_of_string s).

(** ** Character classes

    [str.isspace] on one character, and the separators of [str.split()]
    without argument: the code points of the Unicode database that are
    whitespace (bidirectional class WS, B or S, or category Zs). *)
Definition isspace (c : char) : bool :=
  ((9 <=? c) && (c <=? 13)) || ((28 <=? c) && (c <=? 32))
  || (c =? 133) || (c =? 160) || (c =? 5760)
  || ((8192 <=? c) && (c <=? 8202))
  || (c =? 8232) || (c =? 8233) || (c =? 8239) || (c =? 8287)
  || (c =? 12288).

(** The case classification of the code points from 256 upward comes from
    the Unicode database of the running interpreter; it is a parameter of
    the development. *)
Class UnicodeData : Type := {
  lower_beyond_latin1 : char -> bool;
  upper_beyond_latin1 : char -> bool
}.

(** [c.islower()] and [c.isupper()] for a one-character string: Basic Latin
    and the Latin-1 Supplement are tabulated, the rest is [UnicodeData]. *)
Definition islower `{UnicodeData} (c : char) : bool :=
  if c <? 256 then
    ((97 <=? c) && (c <=? 122)) || (c =? 170) || (c =? 181) || (c =? 186)
    || ((223 <=? c) && (c <=? 246)) || ((248 <=? c) && (c <=? 255))
  else lower_beyond_latin1 c.

Definition isupper `{UnicodeData} (c : char) : bool :=
  if c <? 256 then
    ((65 <=? c) && (c <=? 90)) || ((192 <=? c) && (c <=? 214))
    || ((216 <=? c) && (c <=? 222))
  else upper_beyond_latin1 c.

(** A database that knows no cased character beyond Latin-1; used to run
    the definitions on Latin-1 inputs. *)
Definition latin1_only : UnicodeData :=
  {| lower_beyond_latin1 := fun _ => false;
     upper_beyond_latin1 := fun _ => false |}.

(** ** [str.split()] and [str.join] *)

(** [split_from cur s]: the tokens of [s], where [cur] holds, reversed, the
    characters of the token being read. *)
Fixpoint split_from (cur : str) (s : str) : list str :=
  match s with
  | [] => match cur with [] => [] | _ => [rev cur] end
  | c :: s' =>
      if isspace c then
        match cur with
        | [] => split_from [] s'
        | _ => rev cur :: split_from [] s'
        end
      else split_from (c :: cur) s'
  end.

Definition split (s : str) : list str := split_from [] s.

Fixpoint join (sep : str) (ws : list str) : str :=
  match ws with
  | [] => []
  | [w] => w
  | w :: ws' => w ++ sep ++ join sep ws'
  end.

Definition space : str := [32].

(** [for x in xs: acc.append(f x)] where [f] may raise. *)
Fixpoint mapM {A B : Type} (f : A -> result B) (xs : list A) : result (list B) :=
  match xs with
  | [] => ret []
  | x :: xs' => y <- f x ;; ys <- mapM f xs' ;; ret (y :: ys)
  end.

(** ** class Cipher *)

Inductive class : Type := Cipher_class | Caesar_class | Unicode_Substitution_class.

Record Cipher : Type := mkCipher {
  cls : class;
  n : Z;
  text : str;
  word_tokens : list str;
  encrypted_text : option str;
  decrypted_text : option str;
  max_ord : option Z
}.

(** [Cipher.__init__] *)
Definition Cipher_init (k : class) (n : Z) (text : str) : Cipher :=
  {| cls := k; n := n; text := text;
     word_tokens := split text;
     encrypted_text := None;
     decrypted_text := None;
     max_ord := None |}.

Definition set_encrypted_text (self : Cipher) (s : str) : Cipher :=
  {| cls := cls self; n := n self; text := text self;
     word_tokens := word_tokens self;
     encrypted_text := Some s;
     decrypted_text := decrypted_text self;
     max_ord := max_ord self |}.

Definition set_decrypted_text (self : Cipher) (s : str) : Cipher :=
  {| cls := cls self; n := n self; text := text self;
     word_tokens := word_tokens self;
     encrypted_text := encrypted_text self;
     decrypted_text := Some s;
     max_ord := max_ord self |}.

Definition set_max_ord (self : Cipher) (m : Z) : Cipher :=
  {| cls := cls self; n := n self; text := text self;
     word_tokens := word_tokens self;
     encrypted_text := encrypted_text self;
     decrypted_text := decrypted_text self;
     max_ord := Some m |}.

(** The messages of the assertions and of the guard of [decrypt]. *)
Definition msg_integer : string := "Permutation n must be an integer.".
Definition msg_range : string := "Permutation n must lie in {0, ..., 25}.".
Definition msg_no_encrypted : string := "No encrypted text to decrypt.".

(** ** class Caesar *)

(** [Caesar.__init__] *)
Definition Caesar (v : value) (text : str) : result Cipher :=
  _ <- assert (isinstance_int v) msg_integer ;;
  i <- int_value v ;;
  _ <- assert ((0 <=? i) && (i <=? 25)) msg_range ;;
  ret (Cipher_init Caesar_class i text).

(** The body of the inner loop of [Caesar._encrypt]. *)
Definition caesar_encrypt_char `{UnicodeData} (n : Z) (c : char) : result char :=
  if islower c then
    let offset := ord (lit "a"%char) in
    chr ((ord c + n - offset) mod (ord (lit "z"%char) - offset) + offset)
  else if isupper c then
    let offset := ord (lit "A"%char) in
    chr ((ord c + n - offset) mod (ord (lit "Z"%char) - offset) + offset)
  else ret c.

(** The body of the inner loop of [Caesar._decrypt]. *)
Definition caesar_decrypt_char `{UnicodeData} (n : Z) (c : char) : result char :=
  if islower c then
    let offset := ord (lit "a"%char) in
    chr ((ord c - n - offset) mod (ord (lit "z"%char) - offset) + offset)
  else if isupper c then
    let offset := ord (lit "A"%char) in
    chr ((ord c - n - offset) mod (ord (lit "Z"%char) - offset) + offset)
  else ret c.

Definition Caesar_encrypt `{UnicodeData} (self : Cipher) : result str :=
  word_list <- mapM (mapM (caesar_encrypt_char (n self))) (word_tokens self) ;;
  ret (join space word_list).

Definition Caesar_decrypt `{UnicodeData} (self : Cipher) : result str :=
  match encrypted_text self with
  | None => raise AttributeError
  | Some e =>
      word_list <- mapM (mapM (caesar_decrypt_char (n self))) (split e) ;;
      ret (join space word_list)
  end.

(** ** class Unicode_Substitution *)

(** [Unicode_Substitution.__init__] *)
Definition Unicode_Substitution (v : value) (text : str) : result Cipher :=
  _ <- assert (isinstance_int v) msg_integer ;;
  i <- int_value v ;;
  _ <- assert ((0 <=? i) && (i <=? 65534)) msg_range ;;
  ret (set_max_ord (Cipher_init Unicode_Substitution_class i text) 65535).

Definition unicode_encrypt_char (n m : Z) (c : char) : result char :=
  chr ((ord c + n) mod m).

Definition unicode_decrypt_char (n m : Z) (c : char) : result char :=
  chr ((ord c - n) mod m).

Definition Unicode_encrypt (self : Cipher) : result str :=
  match max_ord self with
  | None => raise AttributeError
  | Some m =>
      word_list <- mapM (mapM (unicode_encrypt_char (n self) m)) (word_tokens self) ;;
      ret (join space word_list)
  end.

Definition Unicode_decrypt (self : Cipher) : result str :=
  match encrypted_text self, max_ord self with
  | Some e, Some m =>
      word_list <- mapM (mapM (unicode_decrypt_char (n self) m)) (split e) ;;
      ret (join space word_list)
  | _, _ => raise AttributeError
  end.

(** ** The public methods of [Cipher] *)

(** Method resolution of [self._encrypt()] and [self._decrypt()]: the base
    class raises, each subclass overrides. *)
Definition _encrypt `{UnicodeData} (self : Cipher) : result str :=
  match cls self with
  | Cipher_class => raise NotImplementedError
  | Caesar_class => Caesar_encrypt self
  | Unicode_Substitution_class => Unicode_encrypt self
  end.

Definition _decrypt `{UnicodeData} (self : Cipher) : result str :=
  match cls self with
  | Cipher_class => raise NotImplementedError
  | Caesar_class => Caesar_decrypt self
  | Unicode_Substitution_class => Unicode_decrypt self
  end.

(** What a method call leaves behind: the returned value or the raised
    exception, the object after the call, and the helper invocations the
    call made, in order. *)
Inductive helper : Type := Helper_encrypt | Helper_decrypt.

Record outcome (A : Type) : Type := Outcome {
  returned : result A;
  after : Cipher;
  invoked : list helper
}.
Arguments Outcome {A} _ _ _.
Arguments returned {A} _.
Arguments after {A} _.
Arguments invoked {A} _.

(** [Cipher.encrypt] *)
Definition encrypt `{UnicodeData} (self : Cipher) : outcome str :=
  match encrypted_text self with
  | None =>
      match _encrypt self with
      | inl e => Outcome (raise e) self [Helper_encrypt]
      | inr s => Outcome (ret s) (set_encrypted_text self s) [Helper_encrypt]
      end
  | Some s => Outcome (ret s) self []
  end.

(** [Cipher.decrypt] *)
Definition decrypt `{UnicodeData} (self : Cipher) : outcome str :=
  match encrypted_text self with
  | None => Outcome (raise (RuntimeError msg_no_encrypted)) self []
  | Some _ =>
      match decrypted_text self with
      | None =>
          match _decrypt self with
          | inl e => Outcome (raise e) self [Helper_decrypt]
          | inr s => Outcome (ret s) (set_decrypted_text self s) [Helper_decrypt]
          end
      | Some s => Outcome (ret s) self []
      end
  end.

(** [Cipher.get_text] *)
Definition get_text (self : Cipher) : outcome str :=
  Outcome (ret (text self)) self [].

(** A caller's sequence of method calls on one job.  An exception raised by
    a call is caught by the caller, who goes on with the same object. *)
Inductive call : Type := Call_encrypt | Call_decrypt | Call_get_text.

Definition perform `{UnicodeData} (c : call) (self : Cipher) : outcome str :=
  match c with
  | Call_encrypt => encrypt self
  | Call_decrypt => decrypt self
  | Call_get_text => get_text self
  end.

(** The object after the calls [cs], and every helper invocation made. *)
Fixpoint run `{UnicodeData} (cs : list call) (self : Cipher) : Cipher * list helper :=
  match cs with
  | [] => (self, [])
  | c :: cs' =>
      let o := perform c self in
      let '(self', hs) := run cs' (after o) in
      (self', invoked o ++ hs)
  end.

(** [job.encrypt()] followed by [job.decrypt()] on a new job: the value
    of the second call. *)
Definition encrypt_then_decrypt `{UnicodeData} (job : result Cipher) : result str :=
  self <- job ;;
  let o := encrypt self in
  _ <- returned o ;;
  returned (decrypt (after o)).

(** [job.encrypt()] on a new job. *)
Definition encrypt_new `{UnicodeData} (job : result Cipher) : result str :=
  self <- job ;; returned (encrypt self).

(** ** Vocabulary of the properties *)

(** ASCII letters, [a]..[z] and [A]..[Z]. *)
Definition ascii_lower (c : char) : bool := (lit "a"%char <=? c) && (c <=? lit "z"%char).
Definition ascii_upper (c : char) : bool := (lit "A"%char <=? c) && (c <=? lit "Z"%char).
Definition ascii_letter (c : char) : bool := ascii_lower c || ascii_upper c.

(** A token: a non-empty run of characters none of which is whitespace. *)
Definition nonspace (w : str) : Prop := Forall (fun c => isspace c = false) w.
Definition token (w : str) : Prop := w <> [] /\ nonspace w.

(** [spaced s]: every whitespace character of [s] is U+0020 and is followed
    by a character that is not whitespace. *)
Fixpoint spaced (s : str) : bool :=
  match s with
  | [] => true
  | c :: s' =>
      if isspace c then
        (c =? 32) && match s' with [] => false | d :: _ => negb (isspace d) end
        && spaced s'
      else spaced s'
  end.

(** [single_spaced s]: [s] neither starts nor ends with whitespace, and its
    only whitespace is isolated U+0020 characters. *)
Definition single_spaced (s : str) : bool :=
  match s with
  | [] => true
  | c :: _ => negb (isspace c) && spaced s
  end.

(** A job as one of the two subclass constructors returns it. *)
Definition constructed (job : Cipher) : Prop :=
  exists v text, Caesar v text = inr job \/ Unicode_Substitution v text = inr job.

(** The states a constructed job goes through keep these facts. *)
Definition job_inv (self : Cipher) : Prop :=
  match cls self with
  | Cipher_class => False
  | Caesar_class => True
  | Unicode_Substitution_class => max_ord self = Some 65535
  end
  /\ (encrypted_text self = None -> decrypted_text self = None).

Definition helper_eq_dec (x y : helper) : {x = y} + {x <> y}.
Proof. decide equality. Defined.

(** The characters the loops append, as total functions: what
    [caesar_encrypt_char], [caesar_decrypt_char] and the two loops of
    [Unicode_Substitution] return (see [caesar_encrypt_char_value] and the
    lemmas after it). *)
Definition caesar_forward `{UnicodeData} (n : Z) (c : char) : char :=
  if islower c then (c + n - 97) mod 25 + 97
  else if isupper c then (c + n - 65) mod 25 + 65
  else c.

Definition caesar_backward `{UnicodeData} (n : Z) (c : char) : char :=
  if islower c then (c - n - 97) mod 25 + 97
  else if isupper c then (c - n - 65) mod 25 + 65
  else c.

Definition unicode_forward (n : Z) (c : char) : char := (c + n) mod 65535.
Definition unicode_backward (n : Z) (c : char) : char := (c - n) mod 65535.

(** How many invocations of each helper a job still has ahead of it. *)
Definition pending_encrypt (self : Cipher) : nat :=
  match encrypted_text self with None => 1 | Some _ => 0 end.

Definition pending_decrypt (self : Cipher) : nat :=
  match decrypted_text self with None => 1 | Some _ => 0 end.

Definition times (h : helper) (hs : list helper) : nat :=
  count_occ helper_eq_dec hs h.

(** The attributes no method assigns after construction. *)
Definition same_frame (a b : Cipher) : Prop :=
  cls a = cls b /\ n a = n b /\ text a = text b
  /\ word_tokens a = word_tokens b /\ max_ord a = max_ord b.

(** The caches of [self] hold what the helpers compute from [job]. *)
Definition caches_from `{UnicodeData} (job self : Cipher) : Prop :=
  (forall e, encrypted_text self = Some e -> _encrypt job = inr e)
  /\ (forall d, decrypted_text self = Some d ->
       exists e, encrypted_text self = Some e
                 /\ _decrypt (set_encrypted_text job e) = inr d).

Definition call_eq_dec (x y : call) : {x = y} + {x <> y}.
Proof. decide equality. Defined.

(** How often a call occurs in a sequence of calls. *)
Definition occurrences (c : call) (cs : list call) : nat :=
  count_occ call_eq_dec cs c.

(** The characters whose Caesar round trip is the identity: the letters
    other than [z] and [Z], and the characters without case. *)
Definition caesar_stable `{UnicodeData} (c : char) : Prop :=
  97 <= c <= 121 \/ 65 <= c <= 89 \/ (islower c = false /\ isupper c = false).

(** ** Characters and exceptions *)

Lemma chr_in_range (i : Z) : 0 <= i < 1114112 -> chr i = inr i.
Proof.
  intros Hi. unfold chr.
  destruct (0 <=? i) eqn:E1; destruct (i <? 1114112) eqn:E2; simpl; try reflexivity; lia.
Qed.

Lemma lit_a : lit "a"%char = 97. Proof. reflexivity. Qed.
Lemma lit_z : lit "z"%char = 122. Proof. reflexivity. Qed.
Lemma lit_A : lit "A"%char = 65. Proof. reflexivity. Qed.
Lemma lit_Z : lit "Z"%char = 90. Proof. reflexivity. Qed.

Section Classification.
Context {U : UnicodeData}.

Lemma islower_ascii_lower (c : char) : 97 <= c <= 122 -> islower c = true.
Proof.
  intros Hc. unfold islower.
  destruct (c <? 256) eqn:E; [|lia].
  destruct (97 <=? c) eqn:E1; destruct (c <=? 122) eqn:E2; simpl; try reflexivity; lia.
Qed.

Lemma islower_ascii_upper (c : char) : 65 <= c <= 90 -> islower c = false.
Proof.
  intros Hc. unfold islower.
  destruct (c <? 256) eqn:E; [|lia].
  repeat match goal with
         | |- context [?a <=? ?b] => destruct (Z.leb_spec a b); try lia
         | |- context [?a =? ?b] => destruct (Z.eqb_spec a b); try lia
         end; reflexivity.
Qed.

Lemma isupper_ascii_upper (c : char) : 65 <= c <= 90 -> isupper c = true.
Proof.
  intros Hc. unfold isupper.
  destruct (c <? 256) eqn:E; [|lia].
  destruct (65 <=? c) eqn:E1; destruct (c <=? 90) eqn:E2; simpl; try reflexivity; lia.
Qed.

(** Below 128 the cased characters are the ASCII letters. *)
Lemma cased_ascii (c : char) :
  c < 128 -> islower c = ascii_lower c /\ isupper c = ascii_upper c.
Proof.
  intros Hc. unfold islower, isupper, ascii_lower, ascii_upper.
  rewrite lit_a, lit_z, lit_A, lit_Z.
  destruct (c <? 256) eqn:E; [|lia].
  split;
    repeat match goal with
           | |- context [?a <=? ?b] => destruct (Z.leb_spec a b); try lia
           | |- context [?a =? ?b] => destruct (Z.eqb_spec a b); try lia
           end; reflexivity.
Qed.

(** The two arithmetic branches of the Caesar loops, with the constants
    evaluated. *)
Lemma caesar_encrypt_lower (n c : Z) :
  islower c = true ->
  caesar_encrypt_char n c = inr ((c + n - 97) mod 25 + 97).
Proof.
  intros H. unfold caesar_encrypt_char. rewrite H. cbv zeta.
  rewrite lit_a, lit_z. unfold ord. change (122 - 97) with 25.
  apply chr_in_range.
  pose proof (Z.mod_pos_bound (c + n - 97) 25 ltac:(lia)). lia.
Qed.

Lemma caesar_encrypt_upper (n c : Z) :
  islower c = false -> isupper c = true ->
  caesar_encrypt_char n c = inr ((c + n - 65) mod 25 + 65).
Proof.
  intros H1 H2. unfold caesar_encrypt_char. rewrite H1, H2. cbv zeta.
  rewrite lit_A, lit_Z. unfold ord. change (90 - 65) with 25.
  apply chr_in_range.
  pose proof (Z.mod_pos_bound (c + n - 65) 25 ltac:(lia)). lia.
Qed.

Lemma caesar_encrypt_other (n c : Z) :
  islower c = false -> isupper c = false -> caesar_encrypt_char n c = inr c.
Proof. intros H1 H2. unfold caesar_encrypt_char. rewrite H1, H2. reflexivity. Qed.

Lemma caesar_decrypt_lower (n c : Z) :
  islower c = true ->
  caesar_decrypt_char n c = inr ((c - n - 97) mod 25 + 97).
Proof.
  intros H. unfold caesar_decrypt_char. rewrite H. cbv zeta.
  rewrite lit_a, lit_z. unfold ord. change (122 - 97) with 25.
  apply chr_in_range.
  pose proof (Z.mod_pos_bound (c - n - 97) 25 ltac:(lia)). lia.
Qed.

Lemma caesar_decrypt_upper (n c : Z) :
  islower c = false -> isupper c = true ->
  caesar_decrypt_char n c = inr ((c - n - 65) mod 25 + 65).
Proof.
  intros H1 H2. unfold caesar_decrypt_char. rewrite H1, H2. cbv zeta.
  rewrite lit_A, lit_Z. unfold ord. change (90 - 65) with 25.
  apply chr_in_range.
  pose proof (Z.mod_pos_bound (c - n - 65) 25 ltac:(lia)). lia.
Qed.

Lemma caesar_decrypt_other (n c : Z) :
  islower c = false -> isupper c = false -> caesar_decrypt_char n c = inr c.
Proof. intros H1 H2. unfold caesar_decrypt_char. rewrite H1, H2. reflexivity. Qed.

End Classification.

(** ** Claims about the Caesar character transform *)

(** C5: for every valid shift, a lowercase letter [a]..[z] is mapped by the
    forward transform to the character whose code point is
    [code('a') + ((code(c) - code('a') + shift) mod 25)], and an uppercase
    letter [A]..[Z] to [code('A') + ((code(c) - code('A') + shift) mod 25)]. *)
Theorem caesar_forward_formula `{UnicodeData} (shift : Z) (c : char) :
  0 <= shift <= 25 ->
  (ascii_lower c = true ->
   caesar_encrypt_char shift c
   = inr (lit "a"%char + (ord c - lit "a"%char + shift) mod 25))
  /\ (ascii_upper c = true ->
      caesar_encrypt_char shift c
      = inr (lit "A"%char + (ord c - lit "A"%char + shift) mod 25)).
Proof.
  intros _. unfold ascii_lower, ascii_upper, ord.
  rewrite lit_a, lit_z, lit_A, lit_Z. split; intros Hc.
  - rewrite caesar_encrypt_lower by (apply islower_ascii_lower; lia).
    f_equal. replace (c + shift - 97) with (c - 97 + shift) by lia. lia.
  - rewrite caesar_encrypt_upper
      by (try apply islower_ascii_upper; try apply isupper_ascii_upper; lia).
    f_equal. replace (c + shift - 65) with (c - 65 + shift) by lia. lia.
Qed.

Lemma caesar_forward_formula_witness :
  0 <= 3 <= 25
  /\ @caesar_encrypt_char latin1_only 3 (lit "x"%char) = inr (lit "b"%char)
  /\ @caesar_encrypt_char latin1_only 3 (lit "Q"%char) = inr (lit "T"%char).
Proof.
  split; [lia|].
  destruct (@caesar_forward_formula latin1_only 3 (lit "x"%char) ltac:(lia)) as [Hl _].
  destruct (@caesar_forward_formula latin1_only 3 (lit "Q"%char) ltac:(lia)) as [_ Hu].
  split; [exact (Hl eq_refl) | exact (Hu eq_refl)].
Defined.

(** C10: for every valid shift, the image of a lowercase letter lies in
    [a]..[y] and the image of an uppercase letter in [A]..[Y]; [z] and [Z]
    are never the image of a letter. *)
Theorem caesar_image_excludes_z `{UnicodeData} (shift : Z) (c : char) :
  0 <= shift <= 25 ->
  (ascii_lower c = true ->
   exists d, caesar_encrypt_char shift c = inr d
             /\ lit "a"%char <= d <= lit "y"%char /\ d <> lit "z"%char)
  /\ (ascii_upper c = true ->
      exists d, caesar_encrypt_char shift c = inr d
                /\ lit "A"%char <= d <= lit "Y"%char /\ d <> lit "Z"%char).
Proof.
  intros _. unfold ascii_lower, ascii_upper.
  rewrite lit_a, lit_z, lit_A, lit_Z.
  change (lit "y"%char) with 121. change (lit "Y"%char) with 89.
  split; intros Hc.
  - exists ((c + shift - 97) mod 25 + 97). split.
    + apply caesar_encrypt_lower, islower_ascii_lower; lia.
    + pose proof (Z.mod_pos_bound (c + shift - 97) 25 ltac:(lia)). lia.
  - exists ((c + shift - 65) mod 25 + 65). split.
    + apply caesar_encrypt_upper;
        [apply islower_ascii_upper | apply isupper_ascii_upper]; lia.
    + pose proof (Z.mod_pos_bound (c + shift - 65) 25 ltac:(lia)). lia.
Qed.

Lemma caesar_image_excludes_z_witness :
  0 <= 0 <= 25
  /\ (exists d, @caesar_encrypt_char latin1_only 0 (lit "z"%char) = inr d
                /\ lit "a"%char <= d <= lit "y"%char /\ d <> lit "z"%char)
  /\ (exists d, @caesar_encrypt_char latin1_only 0 (lit "Z"%char) = inr d
                /\ lit "A"%char <= d <= lit "Y"%char /\ d <> lit "Z"%char).
Proof.
  split; [lia|].
  destruct (@caesar_image_excludes_z latin1_only 0 (lit "z"%char) ltac:(lia)) as [Hl _].
  destruct (@caesar_image_excludes_z latin1_only 0 (lit "Z"%char) ltac:(lia)) as [_ Hu].
  split; [exact (Hl eq_refl) | exact (Hu eq_refl)].
Defined.

(** The branch [else: char = c]: a character for which neither [islower]
    nor [isupper] holds is left unchanged by the encrypt and by the decrypt
    transform, for every shift; below 128 these are exactly the characters
    other than [a]..[z] and [A]..[Z]. *)
Theorem caesar_uncased_passthrough `{UnicodeData} (shift : Z) (c : char) :
  (islower c = false -> isupper c = false ->
   caesar_encrypt_char shift c = inr c /\ caesar_decrypt_char shift c = inr c)
  /\ (c < 128 -> ascii_letter c = false ->
      caesar_encrypt_char shift c = inr c /\ caesar_decrypt_char shift c = inr c).
Proof.
  assert (G : islower c = false -> isupper c = false ->
              caesar_encrypt_char shift c = inr c
              /\ caesar_decrypt_char shift c = inr c).
  { intros H1 H2. split.
    - now apply caesar_encrypt_other.
    - now apply caesar_decrypt_other. }
  split; [exact G|].
  intros Hc Hl. destruct (cased_ascii c Hc) as [El Eu].
  apply orb_false_iff in Hl. destruct Hl as [Hl Hu].
  apply G; congruence.
Qed.

Lemma caesar_uncased_passthrough_witness :
  @caesar_encrypt_char latin1_only 7 (lit "5"%char) = inr (lit "5"%char)
  /\ @caesar_decrypt_char latin1_only 7 (lit "5"%char) = inr (lit "5"%char)
  /\ @caesar_encrypt_char latin1_only 7 215 = inr 215
  /\ @caesar_decrypt_char latin1_only 7 215 = inr 215.
Proof.
  destruct (@caesar_uncased_passthrough latin1_only 7 (lit "5"%char)) as [_ Ha].
  destruct (@caesar_uncased_passthrough latin1_only 7 215) as [Hb _].
  destruct (Ha ltac:(reflexivity) eq_refl) as [Ha1 Ha2].
  destruct (Hb eq_refl eq_refl) as [Hb1 Hb2].
  repeat split; assumption.
Defined.

(** The passthrough does not extend to every character that is not an
    ASCII letter: [islower] holds of U+00E9. *)
Lemma caesar_passthrough_fails_on_e_acute :
  ~ (forall (U : UnicodeData) (shift : Z) (c : char),
        0 <= shift <= 25 -> ascii_letter c = false ->
        caesar_encrypt_char shift c = inr c /\ caesar_decrypt_char shift c = inr c).
Proof.
  intros H. destruct (H latin1_only 0 233 ltac:(lia) eq_refl) as [He _].
  discriminate He.
Qed.

(** C4, evaluated: U+00E9 is not an ASCII letter, yet [islower] holds of it
    and the arithmetic meant for [a]..[z] is applied to it: with the shift
    0 the encrypt and the decrypt transform both map it to [l], and
    [Caesar(0, "\u00e9").encrypt()] is ["l"], the encryption of ["l"] as
    well. *)
Theorem caesar_changes_e_acute `{UnicodeData} :
  0 <= 0 <= 25
  /\ ascii_letter 233 = false
  /\ caesar_encrypt_char 0 233 = inr (lit "l"%char)
  /\ caesar_decrypt_char 0 233 = inr (lit "l"%char)
  /\ encrypt_new (Caesar (VInt 0) [233]) = inr (of_string "l")
  /\ encrypt_new (Caesar (VInt 0) (of_string "l")) = inr (of_string "l").
Proof. split; [lia|]. repeat split. Qed.

(** ** The loops never raise *)

Lemma mapM_value {A B : Type} (f : A -> result B) (g : A -> B) (xs : list A) :
  (forall x, In x xs -> f x = inr (g x)) -> mapM f xs = inr (map g xs).
Proof.
  induction xs as [|x xs IH]; intros Hf; simpl.
  - reflexivity.
  - rewrite (Hf x (or_introl eq_refl)). simpl.
    rewrite IH by (intros y Hy; apply Hf; now right). reflexivity.
Qed.

Lemma caesar_encrypt_char_value `{UnicodeData} (n : Z) (c : char) :
  caesar_encrypt_char n c = inr (caesar_forward n c).
Proof.
  unfold caesar_forward.
  destruct (islower c) eqn:El; [now apply caesar_encrypt_lower|].
  destruct (isupper c) eqn:Eu; [now apply caesar_encrypt_upper|].
  now apply caesar_encrypt_other.
Qed.

Lemma caesar_decrypt_char_value `{UnicodeData} (n : Z) (c : char) :
  caesar_decrypt_char n c = inr (caesar_backward n c).
Proof.
  unfold caesar_backward.
  destruct (islower c) eqn:El; [now apply caesar_decrypt_lower|].
  destruct (isupper c) eqn:Eu; [now apply caesar_decrypt_upper|].
  now apply caesar_decrypt_other.
Qed.

Lemma unicode_encrypt_char_value (n : Z) (c : char) :
  unicode_encrypt_char n 65535 c = inr (unicode_forward n c).
Proof.
  unfold unicode_encrypt_char, unicode_forward, ord.
  apply chr_in_range.
  pose proof (Z.mod_pos_bound (c + n) 65535 ltac:(lia)). lia.
Qed.

Lemma unicode_decrypt_char_value (n : Z) (c : char) :
  unicode_decrypt_char n 65535 c = inr (unicode_backward n c).
Proof.
  unfold unicode_decrypt_char, unicode_backward, ord.
  apply chr_in_range.
  pose proof (Z.mod_pos_bound (c - n) 65535 ltac:(lia)). lia.
Qed.

Lemma Caesar_encrypt_value `{UnicodeData} (self : Cipher) :
  Caesar_encrypt self
  = inr (join space (map (map (caesar_forward (n self))) (word_tokens self))).
Proof.
  unfold Caesar_encrypt.
  rewrite (mapM_value _ (map (caesar_forward (n self)))).
  - reflexivity.
  - intros w _. apply mapM_value. intros c _. apply caesar_encrypt_char_value.
Qed.

Lemma Caesar_decrypt_value `{UnicodeData} (self : Cipher) (e : str) :
  encrypted_text self = Some e ->
  Caesar_decrypt self
  = inr (join space (map (map (caesar_backward (n self))) (split e))).
Proof.
  intros He. unfold Caesar_decrypt. rewrite He.
  rewrite (mapM_value _ (map (caesar_backward (n self)))).
  - reflexivity.
  - intros w _. apply mapM_value. intros c _. apply caesar_decrypt_char_value.
Qed.

Lemma Unicode_encrypt_value (self : Cipher) :
  max_ord self = Some 65535 ->
  Unicode_encrypt self
  = inr (join space (map (map (unicode_forward (n self))) (word_tokens self))).
Proof.
  intros Hm. unfold Unicode_encrypt. rewrite Hm.
  rewrite (mapM_value _ (map (unicode_forward (n self)))).
  - reflexivity.
  - intros w _. apply mapM_value. intros c _. apply unicode_encrypt_char_value.
Qed.

Lemma Unicode_decrypt_value (self : Cipher) (e : str) :
  max_ord self = Some 65535 -> encrypted_text self = Some e ->
  Unicode_decrypt self
  = inr (join space (map (map (unicode_backward (n self))) (split e))).
Proof.
  intros Hm He. unfold Unicode_decrypt. rewrite He, Hm.
  rewrite (mapM_value _ (map (unicode_backward (n self)))).
  - reflexivity.
  - intros w _. apply mapM_value. intros c _. apply unicode_decrypt_char_value.
Qed.

(** On a job that satisfies [job_inv], the helpers return. *)
Lemma _encrypt_returns `{UnicodeData} (self : Cipher) :
  job_inv self -> exists s, _encrypt self = inr s.
Proof.
  intros [Hc _]. unfold _encrypt. destruct (cls self).
  - contradiction.
  - eexists. apply Caesar_encrypt_value.
  - eexists. now apply Unicode_encrypt_value.
Qed.

Lemma _decrypt_returns `{UnicodeData} (self : Cipher) (e : str) :
  job_inv self -> encrypted_text self = Some e -> exists s, _decrypt self = inr s.
Proof.
  intros [Hc _] He. unfold _decrypt. destruct (cls self).
  - contradiction.
  - eexists. exact (Caesar_decrypt_value self e He).
  - eexists. exact (Unicode_decrypt_value self e Hc He).
Qed.

(** ** Construction *)

Lemma Caesar_int (i : Z) (text : str) :
  Caesar (VInt i) text
  = if (0 <=? i) && (i <=? 25) then inr (Cipher_init Caesar_class i text)
    else inl (AssertionError msg_range).
Proof. unfold Caesar. simpl. destruct ((0 <=? i) && (i <=? 25)); reflexivity. Qed.

Lemma Unicode_Substitution_int (i : Z) (text : str) :
  Unicode_Substitution (VInt i) text
  = if (0 <=? i) && (i <=? 65534)
    then inr (set_max_ord (Cipher_init Unicode_Substitution_class i text) 65535)
    else inl (AssertionError msg_range).
Proof.
  unfold Unicode_Substitution. simpl.
  destruct ((0 <=? i) && (i <=? 65534)); reflexivity.
Qed.

Lemma Caesar_not_int (v : value) (text : str) :
  isinstance_int v = false -> Caesar v text = inl (AssertionError msg_integer).
Proof. intros Hv. unfold Caesar. rewrite Hv. reflexivity. Qed.

Lemma Unicode_Substitution_not_int (v : value) (text : str) :
  isinstance_int v = false ->
  Unicode_Substitution v text = inl (AssertionError msg_integer).
Proof. intros Hv. unfold Unicode_Substitution. rewrite Hv. reflexivity. Qed.

Lemma isinstance_int_spec (v : value) :
  isinstance_int v = true <-> exists i, v = VInt i.
Proof.
  split.
  - destruct v; simpl; try discriminate. intros _. now eexists.
  - intros [i ->]. reflexivity.
Qed.

(** C7: [Caesar(n, text)] raises the assertion error exactly when [n] is
    not an integer or lies outside 0..25, and returns a job otherwise;
    [Caesar(-1, "x")], [Caesar(26, "x")] and [Caesar(1.5, "x")] fail,
    [Caesar(0, "x")] and [Caesar(25, "x")] return a job. *)
Theorem caesar_construction_bounds :
  (forall v text,
      (exists msg, Caesar v text = inl (AssertionError msg))
      <-> (isinstance_int v = false \/ exists i, v = VInt i /\ ~ 0 <= i <= 25))
  /\ (forall v text,
         (exists job, Caesar v text = inr job)
         <-> exists i, v = VInt i /\ 0 <= i <= 25)
  /\ (forall v text e, Caesar v text = inl e -> exists msg, e = AssertionError msg)
  /\ Caesar (VInt (-1)) (of_string "x") = inl (AssertionError msg_range)
  /\ Caesar (VInt 26) (of_string "x") = inl (AssertionError msg_range)
  /\ Caesar (VFloat 3 (-1)) (of_string "x") = inl (AssertionError msg_integer)
  /\ Caesar (VInt 0) (of_string "x")
     = inr (Cipher_init Caesar_class 0 (of_string "x"))
  /\ Caesar (VInt 25) (of_string "x")
     = inr (Cipher_init Caesar_class 25 (of_string "x")).
Proof.
  assert (R : forall i, (0 <=? i) && (i <=? 25) = true <-> 0 <= i <= 25).
  { intros i. rewrite andb_true_iff, !Z.leb_le. reflexivity. }
  repeat split; try reflexivity.
  - intros [msg Hm]. destruct (isinstance_int v) eqn:Ev; [right | now left].
    apply isinstance_int_spec in Ev. destruct Ev as [i ->]. exists i.
    split; [reflexivity|]. intros Hi. apply R in Hi.
    rewrite Caesar_int, Hi in Hm. discriminate.
  - intros [Hv | [i [-> Hi]]].
    + exists msg_integer. now apply Caesar_not_int.
    + exists msg_range. rewrite Caesar_int.
      destruct ((0 <=? i) && (i <=? 25)) eqn:E; [|reflexivity].
      apply R in E. contradiction.
  - intros [job Hj]. destruct (isinstance_int v) eqn:Ev.
    + apply isinstance_int_spec in Ev. destruct Ev as [i ->]. exists i.
      split; [reflexivity|]. apply R.
      rewrite Caesar_int in Hj. destruct ((0 <=? i) && (i <=? 25)); [reflexivity|discriminate].
    + rewrite Caesar_not_int in Hj by assumption. discriminate.
  - intros [i [-> Hi]]. apply R in Hi. rewrite Caesar_int, Hi. now eexists.
  - intros v text e He. destruct (isinstance_int v) eqn:Ev.
    + apply isinstance_int_spec in Ev. destruct Ev as [i ->].
      rewrite Caesar_int in He.
      destruct ((0 <=? i) && (i <=? 25)); [discriminate|].
      injection He as <-. now eexists.
    + rewrite Caesar_not_int in He by assumption. injection He as <-. now eexists.
Qed.

(** ** The life of a job *)

Lemma constructed_fresh (job : Cipher) :
  constructed job ->
  job_inv job /\ encrypted_text job = None /\ decrypted_text job = None.
Proof.
  intros [v [text [Hc | Hu]]].
  - destruct (isinstance_int v) eqn:Ev.
    + apply isinstance_int_spec in Ev. destruct Ev as [i ->].
      rewrite Caesar_int in Hc.
      destruct ((0 <=? i) && (i <=? 25)); [|discriminate].
      injection Hc as <-. unfold job_inv. simpl. auto.
    + rewrite Caesar_not_int in Hc by assumption. discriminate.
  - destruct (isinstance_int v) eqn:Ev.
    + apply isinstance_int_spec in Ev. destruct Ev as [i ->].
      rewrite Unicode_Substitution_int in Hu.
      destruct ((0 <=? i) && (i <=? 65534)); [|discriminate].
      injection Hu as <-. unfold job_inv. simpl. auto.
    + rewrite Unicode_Substitution_not_int in Hu by assumption. discriminate.
Qed.

(** What [encrypt] does, by the state of the cache. *)
Lemma encrypt_first `{UnicodeData} (self : Cipher) :
  job_inv self -> encrypted_text self = None ->
  exists s, _encrypt self = inr s
            /\ encrypt self = Outcome (inr s) (set_encrypted_text self s) [Helper_encrypt].
Proof.
  intros Hi He. destruct (_encrypt_returns self Hi) as [s Hs].
  exists s. split; [assumption|]. unfold encrypt. rewrite He, Hs. reflexivity.
Qed.

Lemma encrypt_cached `{UnicodeData} (self : Cipher) (s : str) :
  encrypted_text self = Some s -> encrypt self = Outcome (inr s) self [].
Proof. intros He. unfold encrypt. rewrite He. reflexivity. Qed.

(** What [decrypt] does, by the state of the two caches. *)
Lemma decrypt_unencrypted `{UnicodeData} (self : Cipher) :
  encrypted_text self = None ->
  decrypt self = Outcome (inl (RuntimeError msg_no_encrypted)) self [].
Proof. intros He. unfold decrypt. rewrite He. reflexivity. Qed.

Lemma decrypt_first `{UnicodeData} (self : Cipher) (e : str) :
  job_inv self -> encrypted_text self = Some e -> decrypted_text self = None ->
  exists s, _decrypt self = inr s
            /\ decrypt self = Outcome (inr s) (set_decrypted_text self s) [Helper_decrypt].
Proof.
  intros Hi He Hd. destruct (_decrypt_returns self e Hi He) as [s Hs].
  exists s. split; [assumption|]. unfold decrypt. rewrite He, Hd, Hs. reflexivity.
Qed.

Lemma decrypt_cached `{UnicodeData} (self : Cipher) (s : str) :
  job_inv self -> decrypted_text self = Some s ->
  decrypt self = Outcome (inr s) self [].
Proof.
  intros [_ Hi] Hd. unfold decrypt.
  destruct (encrypted_text self) eqn:He.
  - rewrite Hd. reflexivity.
  - rewrite (Hi eq_refl) in Hd. discriminate.
Qed.

Lemma times_app (h : helper) (xs ys : list helper) :
  times h (xs ++ ys) = (times h xs + times h ys)%nat.
Proof. unfold times. apply count_occ_app. Qed.

(** One call: the invariant is kept, the cache of [encrypted_text] is
    filled by [encrypt] and by nothing else, and each helper invocation
    uses up the job's one pending invocation. *)
Lemma perform_step `{UnicodeData} (c : call) (self : Cipher) :
  job_inv self ->
  let o := perform c self in
  job_inv (after o)
  /\ (encrypted_text (after o) = None
      <-> encrypted_text self = None /\ c <> Call_encrypt)
  /\ (times Helper_encrypt (invoked o) + pending_encrypt (after o)
      <= pending_encrypt self)%nat
  /\ (times Helper_decrypt (invoked o) + pending_decrypt (after o)
      <= pending_decrypt self)%nat.
Proof.
  intros Hi. destruct c; simpl.
  - destruct (encrypted_text self) as [e|] eqn:He.
    + rewrite (encrypt_cached self e He). simpl.
      unfold pending_encrypt. rewrite He.
      split; [assumption|]. split; [|split; simpl; lia].
      split; [discriminate | intros [E _]; discriminate].
    + destruct (encrypt_first self Hi He) as [s [_ ->]]. simpl.
      unfold pending_encrypt, pending_decrypt, job_inv. simpl. rewrite He.
      split; [split; [apply Hi | discriminate]|].
      split; [|split; simpl; lia].
      split; [discriminate | intros [_ E]; now contradiction E].
  - destruct (encrypted_text self) as [e|] eqn:He.
    + destruct (decrypted_text self) as [d|] eqn:Hd.
      * rewrite (decrypt_cached self d Hi Hd). simpl.
        unfold pending_encrypt, pending_decrypt. rewrite He, Hd.
        split; [assumption|]. split; [|split; simpl; lia].
        split; [discriminate | intros [E _]; discriminate].
      * destruct (decrypt_first self e Hi He Hd) as [s [_ ->]]. simpl.
        unfold pending_encrypt, pending_decrypt, job_inv. simpl. rewrite He, Hd.
        split; [split; [apply Hi | discriminate]|].
        split; [|split; simpl; lia].
        split; [discriminate | intros [E _]; discriminate].
    + rewrite (decrypt_unencrypted self He). simpl.
      split; [assumption|]. split; [|split; simpl; lia].
      rewrite He. split; [intros _; split; [reflexivity | discriminate] | reflexivity].
  - split; [assumption|]. split; [|split; simpl; lia].
    split; [intros E; split; [assumption | discriminate] | intros [E _]; assumption].
Qed.

Lemma run_cons `{UnicodeData} (c : call) (cs : list call) (self : Cipher) :
  run (c :: cs) self
  = (fst (run cs (after (perform c self))),
     invoked (perform c self) ++ snd (run cs (after (perform c self)))).
Proof. simpl. destruct (run cs (after (perform c self))). reflexivity. Qed.

(** Any sequence of calls. *)
Lemma run_steps `{UnicodeData} (cs : list call) (self : Cipher) :
  job_inv self ->
  job_inv (fst (run cs self))
  /\ (encrypted_text (fst (run cs self)) = None
      <-> encrypted_text self = None /\ ~ In Call_encrypt cs)
  /\ (times Helper_encrypt (snd (run cs self)) <= pending_encrypt self)%nat
  /\ (times Helper_decrypt (snd (run cs self)) <= pending_decrypt self)%nat.
Proof.
  revert self. induction cs as [|c cs IH]; intros self Hi.
  - simpl. repeat split; try apply Hi; try tauto; unfold times; simpl; lia.
  - rewrite run_cons. cbn [fst snd].
    destruct (perform_step c self Hi) as [Hi' [He [Hne Hnd]]].
    destruct (IH _ Hi') as [Hi'' [He' [Hne' Hnd']]].
    split; [assumption|]. split; [|split].
    + rewrite He', He. simpl. split.
      * intros [[E Hc] Hn]. split; [assumption|]. intros [Hx | Hx]; auto.
      * intros [E Hn]. repeat split; auto; intros Hc; apply Hn; now left.
    + rewrite times_app. lia.
    + rewrite times_app. lia.
Qed.

(** ** Claims about the state of a job *)

(** C6: on a job built by either constructor and after any sequence of
    calls, [decrypt()] raises the runtime error "No encrypted text to
    decrypt." if and only if [encrypt()] was never called on the job, it
    fails in no other situation, and the failed call leaves the job as it
    was and invokes no helper. *)
Theorem decrypt_guard `{UnicodeData} (job : Cipher) (cs : list call) :
  constructed job ->
  let self := fst (run cs job) in
  (returned (decrypt self) = inl (RuntimeError msg_no_encrypted)
   <-> ~ In Call_encrypt cs)
  /\ ((exists e, returned (decrypt self) = inl e) <-> ~ In Call_encrypt cs)
  /\ (~ In Call_encrypt cs ->
      after (decrypt self) = self /\ invoked (decrypt self) = []).
Proof.
  intros Hc self.
  destruct (constructed_fresh job Hc) as [Hi [He0 _]].
  destruct (run_steps cs job Hi) as [Hi' [He _]]. fold self in Hi', He.
  assert (D : encrypted_text self <> None ->
              exists s, returned (decrypt self) = inr s).
  { intros Hn. destruct (encrypted_text self) as [e|] eqn:Ee; [|congruence].
    destruct (decrypted_text self) as [d|] eqn:Ed.
    - exists d. now rewrite (decrypt_cached self d Hi' Ed).
    - destruct (decrypt_first self e Hi' Ee Ed) as [s [_ ->]]. now exists s. }
  assert (N : ~ In Call_encrypt cs -> encrypted_text self = None).
  { intros Hn. apply He. auto. }
  assert (F : (exists e, returned (decrypt self) = inl e) -> ~ In Call_encrypt cs).
  { intros [e Hr] Hin.
    destruct D as [s Hs]; [|congruence].
    intros E. apply He in E. destruct E as [_ E]. contradiction. }
  split; [split|split; [split|]].
  - intros Hr. apply F. eexists. exact Hr.
  - intros Hn. now rewrite (decrypt_unencrypted self (N Hn)).
  - exact F.
  - intros Hn. eexists. now rewrite (decrypt_unencrypted self (N Hn)).
  - intros Hn. now rewrite (decrypt_unencrypted self (N Hn)).
Qed.

Lemma decrypt_guard_witness :
  constructed (Cipher_init Caesar_class 3 (of_string "ab"))
  /\ returned (@decrypt latin1_only
                 (fst (@run latin1_only [Call_get_text; Call_decrypt]
                         (Cipher_init Caesar_class 3 (of_string "ab")))))
     = inl (RuntimeError msg_no_encrypted).
Proof.
  assert (Hc : constructed (Cipher_init Caesar_class 3 (of_string "ab"))).
  { exists (VInt 3), (of_string "ab"). left. reflexivity. }
  split; [exact Hc|].
  destruct (@decrypt_guard latin1_only _ [Call_get_text; Call_decrypt] Hc)
    as [[_ Hg] _].
  apply Hg. simpl. intros [E | [E | []]]; discriminate E.
Defined.

(** ** Tokens, [split] and [join] *)

Lemma nonspace_rev (w : str) : nonspace w -> nonspace (rev w).
Proof. unfold nonspace. apply Forall_rev. Qed.

(** Reading a run of non-whitespace characters only grows the current
    token. *)
Lemma split_from_word (w cur rest : str) :
  nonspace w -> split_from cur (w ++ rest) = split_from (rev w ++ cur) rest.
Proof.
  revert cur. induction w as [|c w IH]; intros cur Hw.
  - reflexivity.
  - inversion Hw as [|? ? Hc Hw']; subst. simpl. rewrite Hc.
    rewrite IH by assumption. now rewrite <- app_assoc.
Qed.

Lemma split_from_end (cur : str) : cur <> [] -> split_from cur [] = [rev cur].
Proof. destruct cur; [congruence | reflexivity]. Qed.

Lemma split_from_space (cur rest : str) :
  cur <> [] -> split_from cur (32 :: rest) = rev cur :: split_from [] rest.
Proof. destruct cur; [congruence | reflexivity]. Qed.

Lemma rev_not_nil (w : str) : w <> [] -> rev w <> [].
Proof.
  intros Hw E. apply Hw. rewrite <- (rev_involutive w), E. reflexivity.
Qed.

(** [split] undoes [join] on tokens. *)
Lemma split_join (ws : list str) :
  Forall token ws -> split (join space ws) = ws.
Proof.
  unfold split. induction ws as [|w ws IH]; intros Hws.
  - reflexivity.
  - inversion Hws as [|? ? [Hne Hw] Hws']; subst.
    destruct ws as [|w2 ws].
    + simpl. rewrite <- (app_nil_r w) at 1.
      rewrite split_from_word, app_nil_r by assumption.
      rewrite split_from_end by now apply rev_not_nil.
      now rewrite rev_involutive.
    + change (join space (w :: w2 :: ws)) with (w ++ 32 :: join space (w2 :: ws)).
      rewrite split_from_word, app_nil_r by assumption.
      rewrite split_from_space by now apply rev_not_nil.
      rewrite rev_involutive. f_equal. now apply IH.
Qed.

(** Every word [split] returns is a token. *)
Lemma split_from_tokens (s cur : str) :
  nonspace cur -> Forall token (split_from cur s).
Proof.
  revert cur. induction s as [|c s IH]; intros cur Hcur.
  - simpl. destruct cur as [|d cur]; constructor; [|constructor].
    split; [apply rev_not_nil; discriminate | now apply nonspace_rev].
  - simpl. destruct (isspace c) eqn:Ec.
    + destruct cur as [|d cur].
      * apply IH. constructor.
      * constructor; [|apply IH; constructor].
        split; [apply rev_not_nil; discriminate | now apply nonspace_rev].
    + apply IH. constructor; assumption.
Qed.

Lemma split_tokens (s : str) : Forall token (split s).
Proof. apply split_from_tokens. constructor. Qed.

(** [split] keeps the characters that are not whitespace, in order. *)
Lemma concat_split_from (s cur : str) :
  List.concat (split_from cur s)
  = rev cur ++ filter (fun c => negb (isspace c)) s.
Proof.
  revert cur. induction s as [|c s IH]; intros cur.
  - simpl. destruct cur; simpl; now rewrite ?app_nil_r.
  - simpl. destruct (isspace c) eqn:Ec; simpl.
    + destruct cur as [|d cur].
      * apply IH.
      * cbn [List.concat]. rewrite IH. reflexivity.
    + rewrite IH. simpl. now rewrite <- app_assoc.
Qed.

Lemma concat_split (s : str) :
  List.concat (split s) = filter (fun c => negb (isspace c)) s.
Proof. apply concat_split_from. Qed.

(** A joined list of tokens is single-spaced. *)
Lemma spaced_word (w rest : str) :
  nonspace w -> spaced (w ++ rest) = spaced rest.
Proof.
  induction w as [|c w IH]; intros Hw.
  - reflexivity.
  - inversion Hw as [|? ? Hc Hw']; subst. simpl. rewrite Hc. now apply IH.
Qed.

Lemma join_head (ws : list str) (w : str) :
  Forall token (w :: ws) ->
  exists c r, join space (w :: ws) = c :: r /\ isspace c = false.
Proof.
  intros Hws. inversion Hws as [|? ? [Hne Hw] _]; subst.
  destruct w as [|c w]; [congruence|].
  inversion Hw; subst.
  destruct ws; simpl; eauto.
Qed.

Lemma spaced_join (ws : list str) :
  Forall token ws -> spaced (join space ws) = true.
Proof.
  induction ws as [|w ws IH]; intros Hws.
  - reflexivity.
  - inversion Hws as [|? ? [Hne Hw] Hws']; subst.
    destruct ws as [|w2 ws].
    + simpl. rewrite <- (app_nil_r w). now rewrite spaced_word.
    + change (join space (w :: w2 :: ws)) with (w ++ 32 :: join space (w2 :: ws)).
      rewrite spaced_word by assumption.
      destruct (join_head ws w2 Hws') as [c [r [E Hc]]].
      specialize (IH Hws'). rewrite E in *.
      change (spaced (32 :: c :: r))
        with (negb (isspace c) && spaced (c :: r)).
      now rewrite Hc, IH.
Qed.

Lemma single_spaced_join (ws : list str) :
  Forall token ws -> single_spaced (join space ws) = true.
Proof.
  intros Hws. destruct ws as [|w ws]; [reflexivity|].
  destruct (join_head ws w Hws) as [c [r [E Hc]]].
  pose proof (spaced_join _ Hws) as Hs. rewrite E in *.
  unfold single_spaced. now rewrite Hc, Hs.
Qed.

(** ** Claims about whole texts *)

Lemma isspace_letter_range (d : char) : 65 <= d <= 122 -> isspace d = false.
Proof.
  intros Hd. unfold isspace.
  repeat match goal with
         | |- context [?a <=? ?b] => destruct (Z.leb_spec a b); try lia
         | |- context [?a =? ?b] => destruct (Z.eqb_spec a b); try lia
         end; reflexivity.
Qed.

Lemma caesar_forward_nonspace `{UnicodeData} (n : Z) (c : char) :
  isspace c = false -> isspace (caesar_forward n c) = false.
Proof.
  intros Hc. unfold caesar_forward.
  destruct (islower c); [|destruct (isupper c)]; try assumption;
    apply isspace_letter_range;
    match goal with
    | |- _ <= ?x mod 25 + _ <= _ =>
        pose proof (Z.mod_pos_bound x 25 ltac:(lia)); lia
    end.
Qed.

Lemma map_token (f : char -> char) (w : str) :
  (forall c, isspace c = false -> isspace (f c) = false) ->
  token w -> token (map f w).
Proof.
  intros Hf [Hne Hw]. split.
  - destruct w; [congruence | discriminate].
  - unfold nonspace in *. rewrite Forall_map.
    eapply Forall_impl; [|exact Hw]. exact Hf.
Qed.

Lemma map_tokens (f : char -> char) (ws : list str) :
  (forall c, isspace c = false -> isspace (f c) = false) ->
  Forall token ws -> Forall token (map (map f) ws).
Proof.
  intros Hf Hws. rewrite Forall_map.
  eapply Forall_impl; [|exact Hws]. intros w. now apply map_token.
Qed.

(** [Caesar(shift, text).encrypt()] on a new job. *)
Lemma caesar_encrypt_new `{UnicodeData} (shift : Z) (text : str) :
  0 <= shift <= 25 ->
  encrypt_new (Caesar (VInt shift) text)
  = inr (join space (map (map (caesar_forward shift)) (split text))).
Proof.
  intros Hs. rewrite Caesar_int.
  replace ((0 <=? shift) && (shift <=? 25)) with true
    by (symmetry; apply andb_true_iff; split; apply Z.leb_le; lia).
  unfold encrypt_new, bind, encrypt, _encrypt. simpl.
  rewrite Caesar_encrypt_value. reflexivity.
Qed.

(** C9: [Caesar(0, "a   b\tc").encrypt()] is ["a b c"]; and for every
    text and valid shift the output is the encrypted tokens of the text
    joined by single spaces: it neither starts nor ends with whitespace,
    its only whitespace is isolated U+0020 characters, splitting it gives
    back exactly the encrypted tokens, and the tokens are the characters of
    the text that are not whitespace. *)
Theorem whitespace_normalization `{UnicodeData} :
  encrypt_new (Caesar (VInt 0) (of_string "a   b" ++ [9] ++ of_string "c"))
  = inr (of_string "a b c")
  /\ forall shift text,
      0 <= shift <= 25 ->
      exists out,
        encrypt_new (Caesar (VInt shift) text) = inr out
        /\ out = join space (map (map (caesar_forward shift)) (split text))
        /\ single_spaced out = true
        /\ split out = map (map (caesar_forward shift)) (split text)
        /\ List.concat (split text) = filter (fun c => negb (isspace c)) text.
Proof.
  split; [reflexivity|].
  intros shift text Hs. eexists. split; [now apply caesar_encrypt_new|].
  assert (T : Forall token (map (map (caesar_forward shift)) (split text))).
  { apply map_tokens; [apply caesar_forward_nonspace | apply split_tokens]. }
  split; [reflexivity|]. split; [now apply single_spaced_join|].
  split; [now apply split_join | apply concat_split].
Qed.

Lemma whitespace_normalization_witness :
  0 <= 2 <= 25
  /\ exists out,
      @encrypt_new latin1_only
        (Caesar (VInt 2) ([32; 10] ++ of_string "Hi,  you" ++ [9; 9] ++ of_string "2 "))
      = inr out
      /\ out = of_string "Jk, bqw 2"
      /\ single_spaced out = true.
Proof.
  split; [lia|].
  destruct (@whitespace_normalization latin1_only) as [_ Hg].
  destruct (Hg 2 ([32; 10] ++ of_string "Hi,  you" ++ [9; 9] ++ of_string "2 ")
              ltac:(lia)) as [out [Ho [Eo [Hs _]]]].
  exists out. split; [exact Ho|]. split; [|exact Hs].
  rewrite Eo. reflexivity.
Defined.

(** ** Round trips *)

(** C2, evaluated: [Caesar(0, "z").encrypt()] is ["a"], not ["z"]: with the
    modulus [ord("z") - ord("a") = 25] the 26th letter wraps onto the
    first even under the shift 0. *)
Theorem caesar_shift_0_z_gives_a `{UnicodeData} :
  encrypt_new (Caesar (VInt 0) (of_string "z")) = inr (of_string "a")
  /\ encrypt_new (Caesar (VInt 0) (of_string "z")) <> inr (of_string "z").
Proof. split; [reflexivity | discriminate]. Qed.

(** C1, evaluated: with shift 0 and the text ["z"], [encrypt()] then
    [decrypt()] returns ["a"]; the original text is not reproduced. *)
Theorem caesar_round_trip_loses_z `{UnicodeData} :
  0 <= 0 <= 25
  /\ Forall (fun c => ascii_letter c = true) (of_string "z")
  /\ encrypt_then_decrypt (Caesar (VInt 0) (of_string "z")) = inr (of_string "a")
  /\ encrypt_then_decrypt (Caesar (VInt 0) (of_string "z")) <> inr (of_string "z").
Proof.
  split; [lia|]. split; [repeat constructor|].
  split; [reflexivity | discriminate].
Qed.

(** C3, evaluated: with shift 65470 the letter [a] is shifted onto U+0020;
    [decrypt()] splits the encrypted text again and the character is lost:
    ["a"] comes back as the empty string and ["ab"] as ["b"]. *)
Theorem unicode_round_trip_loses_whitespace_images `{UnicodeData} :
  0 <= 65470 <= 65534
  /\ Forall (fun c => 0 <= c < 65535) (of_string "ab")
  /\ encrypt_new (Unicode_Substitution (VInt 65470) (of_string "ab"))
     = inr (of_string " !")
  /\ encrypt_then_decrypt (Unicode_Substitution (VInt 65470) (of_string "ab"))
     = inr (of_string "b")
  /\ encrypt_then_decrypt (Unicode_Substitution (VInt 65470) (of_string "a"))
     = inr [].
Proof.
  split; [lia|]. split; [repeat constructor; cbv; congruence|].
  repeat split; reflexivity.
Qed.

(** What does hold.  The inverse character maps undo the forward ones on
    the letters [a]..[y] and [A]..[Y], and on every code point below 65535. *)
Lemma caesar_backward_forward `{UnicodeData} (n : Z) (c : char) :
  97 <= c <= 121 \/ 65 <= c <= 89 ->
  caesar_backward n (caesar_forward n c) = c.
Proof.
  intros [Hc | Hc].
  - unfold caesar_forward. rewrite islower_ascii_lower by lia.
    pose proof (Z.mod_pos_bound (c + n - 97) 25 ltac:(lia)) as Hm.
    unfold caesar_backward. rewrite islower_ascii_lower by lia.
    replace ((c + n - 97) mod 25 + 97 - n - 97) with ((c + n - 97) mod 25 - n) by lia.
    rewrite Zminus_mod_idemp_l.
    replace (c + n - 97 - n) with (c - 97) by lia.
    rewrite Z.mod_small; lia.
  - unfold caesar_forward.
    rewrite islower_ascii_upper, isupper_ascii_upper by lia.
    pose proof (Z.mod_pos_bound (c + n - 65) 25 ltac:(lia)) as Hm.
    unfold caesar_backward.
    rewrite islower_ascii_upper, isupper_ascii_upper by lia.
    replace ((c + n - 65) mod 25 + 65 - n - 65) with ((c + n - 65) mod 25 - n) by lia.
    rewrite Zminus_mod_idemp_l.
    replace (c + n - 65 - n) with (c - 65) by lia.
    rewrite Z.mod_small; lia.
Qed.

Lemma unicode_backward_forward (n : Z) (c : char) :
  0 <= c < 65535 -> unicode_backward n (unicode_forward n c) = c.
Proof.
  intros Hc. unfold unicode_backward, unicode_forward.
  rewrite Zminus_mod_idemp_l.
  replace (c + n - n) with c by lia.
  now apply Z.mod_small.
Qed.

Lemma map_map_inverse (f g : char -> char) (P : char -> Prop) (ws : list str) :
  (forall c, P c -> g (f c) = c) ->
  Forall (Forall P) ws -> map (map g) (map (map f) ws) = ws.
Proof.
  intros Hgf Hws. induction Hws as [|w ws Hw _ IH]; simpl.
  - reflexivity.
  - f_equal; [|exact IH].
    induction Hw as [|c w Hc _ IHw]; simpl; [reflexivity|].
    now rewrite Hgf, IHw.
Qed.

(** [encrypt()] then [decrypt()] on a new job of either subclass, in terms
    of the character maps. *)
Lemma caesar_encrypt_then_decrypt `{UnicodeData} (shift : Z) (text : str) :
  0 <= shift <= 25 ->
  encrypt_then_decrypt (Caesar (VInt shift) text)
  = inr (join space
           (map (map (caesar_backward shift))
              (split (join space (map (map (caesar_forward shift)) (split text)))))).
Proof.
  intros Hs. rewrite Caesar_int.
  replace ((0 <=? shift) && (shift <=? 25)) with true
    by (symmetry; apply andb_true_iff; split; apply Z.leb_le; lia).
  unfold encrypt_then_decrypt, bind, encrypt, _encrypt. simpl.
  rewrite Caesar_encrypt_value. simpl.
  unfold decrypt, _decrypt. simpl.
  erewrite Caesar_decrypt_value by reflexivity. reflexivity.
Qed.

Lemma unicode_encrypt_then_decrypt `{UnicodeData} (shift : Z) (text : str) :
  0 <= shift <= 65534 ->
  encrypt_then_decrypt (Unicode_Substitution (VInt shift) text)
  = inr (join space
           (map (map (unicode_backward shift))
              (split (join space (map (map (unicode_forward shift)) (split text)))))).
Proof.
  intros Hs. rewrite Unicode_Substitution_int.
  replace ((0 <=? shift) && (shift <=? 65534)) with true
    by (symmetry; apply andb_true_iff; split; apply Z.leb_le; lia).
  unfold encrypt_then_decrypt, bind, encrypt, _encrypt. simpl.
  rewrite Unicode_encrypt_value by reflexivity. simpl.
  unfold decrypt, _decrypt. simpl.
  erewrite Unicode_decrypt_value by reflexivity. reflexivity.
Qed.

Lemma map_tokens_on (f : char -> char) (P : char -> Prop) (ws : list str) :
  Forall token ws -> Forall (Forall P) ws ->
  (forall c, P c -> isspace (f c) = false) ->
  Forall token (map (map f) ws).
Proof.
  intros Htok Hws Hf. induction Hws as [|w ws Hw _ IH]; simpl; [constructor|].
  inversion Htok as [|? ? [Hne _] Htok']; subst.
  constructor; [|now apply IH].
  split.
  - destruct w; [congruence | discriminate].
  - unfold nonspace. rewrite Forall_map.
    eapply Forall_impl; [|exact Hw]. exact Hf.
Qed.

(** The Caesar round trip holds on texts whose letters avoid [z] and [Z]. *)
Lemma caesar_round_trip_a_to_y `{UnicodeData} (shift : Z) (text : str) :
  0 <= shift <= 25 ->
  Forall (Forall (fun c => 97 <= c <= 121 \/ 65 <= c <= 89)) (split text) ->
  encrypt_then_decrypt (Caesar (VInt shift) text) = inr (join space (split text)).
Proof.
  intros Hs Ht. rewrite caesar_encrypt_then_decrypt by assumption.
  rewrite split_join
    by (apply map_tokens; [apply caesar_forward_nonspace | apply split_tokens]).
  erewrite map_map_inverse; [reflexivity | | exact Ht].
  intros c Hc. now apply caesar_backward_forward.
Qed.

(** The Unicode round trip holds when no character of the text is shifted
    onto a whitespace code point. *)
Lemma unicode_round_trip_without_whitespace_images `{UnicodeData}
    (shift : Z) (text : str) :
  0 <= shift <= 65534 ->
  Forall (Forall (fun c => 0 <= c < 65535
                           /\ isspace (unicode_forward shift c) = false))
    (split text) ->
  encrypt_then_decrypt (Unicode_Substitution (VInt shift) text)
  = inr (join space (split text)).
Proof.
  intros Hs Ht. rewrite unicode_encrypt_then_decrypt by assumption.
  rewrite split_join.
  - erewrite map_map_inverse; [reflexivity | | exact Ht].
    intros c [Hc _]. now apply unicode_backward_forward.
  - apply (map_tokens_on _ _ _ (split_tokens text) Ht).
    intros c [_ Hc]. exact Hc.
Qed.

(** * Further properties of the code *)

(** ** Construction of [Unicode_Substitution] *)

(** X1: [Unicode_Substitution(n, text)] raises the assertion error exactly
    when [n] is not an integer or lies outside 0..65534 (with the message of
    the failing assertion), and otherwise returns a fresh job: the shift and
    the text stored, the tokens of the text, both caches empty and
    [max_ord = 65535]. *)
Theorem unicode_construction_bounds (v : value) (txt : str) :
  ((exists e, Unicode_Substitution v txt = inl e)
   <-> (isinstance_int v = false \/ exists i, v = VInt i /\ ~ 0 <= i <= 65534))
  /\ (forall e,
         Unicode_Substitution v txt = inl e ->
         e = AssertionError (if isinstance_int v then msg_range else msg_integer))
  /\ (forall job,
         Unicode_Substitution v txt = inr job ->
         exists i, v = VInt i /\ 0 <= i <= 65534
                   /\ job = mkCipher Unicode_Substitution_class i txt (split txt)
                             None None (Some 65535)).
Proof.
  assert (R : forall i, (0 <=? i) && (i <=? 65534) = true <-> 0 <= i <= 65534).
  { intros i. rewrite andb_true_iff, !Z.leb_le. reflexivity. }
  destruct (isinstance_int v) eqn:Ev.
  - apply isinstance_int_spec in Ev. destruct Ev as [i ->].
    rewrite Unicode_Substitution_int.
    destruct ((0 <=? i) && (i <=? 65534)) eqn:E.
    + apply R in E. split; [split|split].
      * intros [e He]. discriminate He.
      * intros [Hf | [j [Hj Hn]]]; [discriminate|].
        injection Hj as <-. contradiction.
      * intros e He. discriminate He.
      * intros job Hj. injection Hj as <-. exists i. auto.
    + assert (Hn : ~ 0 <= i <= 65534).
      { intros Hi. apply R in Hi. congruence. }
      split; [split|split].
      * intros _. right. exists i. auto.
      * intros _. now eexists.
      * intros e He. injection He as <-. reflexivity.
      * intros job Hj. discriminate Hj.
  - rewrite Unicode_Substitution_not_int by assumption.
    split; [split|split].
    + intros _. now left.
    + intros _. now eexists.
    + intros e He. injection He as <-. reflexivity.
    + intros job Hj. discriminate Hj.
Qed.

(** ** What the methods leave alone *)

Lemma same_frame_refl (a : Cipher) : same_frame a a.
Proof. unfold same_frame. auto. Qed.

Lemma same_frame_trans (a b c : Cipher) :
  same_frame a b -> same_frame b c -> same_frame a c.
Proof. unfold same_frame. intuition congruence. Qed.

(** One call assigns nothing but an empty cache. *)
Lemma perform_frame `{UnicodeData} (c : call) (self : Cipher) :
  same_frame self (after (perform c self))
  /\ (forall e, encrypted_text self = Some e ->
                encrypted_text (after (perform c self)) = Some e)
  /\ (forall d, decrypted_text self = Some d ->
                decrypted_text (after (perform c self)) = Some d).
Proof.
  unfold same_frame. destruct c; simpl.
  - unfold encrypt. destruct (encrypted_text self) eqn:He.
    + simpl. rewrite He. auto 10.
    + destruct (_encrypt self); simpl; rewrite ?He; auto 10.
      repeat split; auto. discriminate.
  - unfold decrypt. destruct (encrypted_text self) eqn:He.
    + destruct (decrypted_text self) eqn:Hd.
      * simpl. rewrite He, Hd. auto 10.
      * destruct (_decrypt self); simpl; rewrite ?He, ?Hd; auto 10.
        repeat split; auto. discriminate.
    + simpl. rewrite He. auto 10.
  - auto 10.
Qed.

Lemma run_frame `{UnicodeData} (cs : list call) (self : Cipher) :
  same_frame self (fst (run cs self))
  /\ (forall e, encrypted_text self = Some e ->
                encrypted_text (fst (run cs self)) = Some e)
  /\ (forall d, decrypted_text self = Some d ->
                decrypted_text (fst (run cs self)) = Some d).
Proof.
  revert self. induction cs as [|c cs IH]; intros self.
  - simpl. split; [apply same_frame_refl | auto].
  - rewrite run_cons. cbn [fst].
    destruct (perform_frame c self) as [Hf [He Hd]].
    destruct (IH (after (perform c self))) as [Hf' [He' Hd']].
    split; [eapply same_frame_trans; eassumption|]. split.
    + intros e E. apply He', He, E.
    + intros d D. apply Hd', Hd, D.
Qed.

(** X2: whatever calls were made on a job, in whatever state, [get_text()]
    returns the text the job was built with, character for character
    (whitespace included), changes nothing and invokes no helper; and the
    class, the shift, the tokens and [max_ord] are the ones the job was
    built with. *)
Theorem get_text_returns_original `{UnicodeData} (job : Cipher) (cs : list call) :
  get_text (fst (run cs job)) = Outcome (inr (text job)) (fst (run cs job)) []
  /\ same_frame job (fst (run cs job)).
Proof.
  destruct (run_frame cs job) as [Hf _]. split; [|exact Hf].
  unfold get_text. destruct Hf as [_ [_ [Ht _]]]. now rewrite Ht.
Qed.

(** X3: a cache that is filled is never assigned again: once
    [encrypted_text] (or [decrypted_text]) holds a string, it holds the same
    string after any further calls. *)
Theorem caches_never_overwritten `{UnicodeData} (self : Cipher) (cs : list call) :
  (forall e, encrypted_text self = Some e ->
             encrypted_text (fst (run cs self)) = Some e)
  /\ (forall d, decrypted_text self = Some d ->
                decrypted_text (fst (run cs self)) = Some d).
Proof. apply run_frame. Qed.

(** ** The base class *)

Lemma count_call_cons (c d : call) (cs : list call) :
  occurrences c (d :: cs)
  = ((if call_eq_dec d c then 1 else 0) + occurrences c cs)%nat.
Proof. unfold occurrences. simpl. destruct (call_eq_dec d c); reflexivity. Qed.

(** X4: a job of the base class [Cipher] never gets encrypted: after any
    calls it is as it was built, [encrypt()] raises [NotImplementedError],
    [decrypt()] raises the runtime error of the guard, and since the failure
    is not cached [_encrypt] is invoked once per [encrypt()] call and
    [_decrypt] never. *)
Theorem base_class_never_encrypts `{UnicodeData} (k : Z) (txt : str) (cs : list call) :
  let job := Cipher_init Cipher_class k txt in
  fst (run cs job) = job
  /\ encrypt job = Outcome (inl NotImplementedError) job [Helper_encrypt]
  /\ decrypt job = Outcome (inl (RuntimeError msg_no_encrypted)) job []
  /\ times Helper_encrypt (snd (run cs job)) = occurrences Call_encrypt cs
  /\ times Helper_decrypt (snd (run cs job)) = 0%nat.
Proof.
  intros job.
  assert (S : forall c, after (perform c job) = job
                        /\ invoked (perform c job)
                           = if call_eq_dec c Call_encrypt then [Helper_encrypt] else []).
  { intros c. destruct c; split; reflexivity. }
  assert (G : fst (run cs job) = job
              /\ times Helper_encrypt (snd (run cs job)) = occurrences Call_encrypt cs
              /\ times Helper_decrypt (snd (run cs job)) = 0%nat).
  { induction cs as [|c cs IH].
    - repeat split.
    - rewrite run_cons. cbn [fst snd]. destruct (S c) as [-> ->].
      destruct IH as [IH1 [IH2 IH3]].
      split; [exact IH1|]. rewrite !times_app, IH2, IH3, count_call_cons.
      destruct (call_eq_dec c Call_encrypt); split; reflexivity. }
  destruct G as [G1 [G2 G3]].
  repeat split; assumption.
Qed.

(** ** What the caches hold *)

(** The helpers read the frame, and [_decrypt] the encrypted text, only. *)
Lemma _encrypt_frame `{UnicodeData} (a b : Cipher) :
  same_frame a b -> _encrypt a = _encrypt b.
Proof.
  intros [Hc [Hn [_ [Hw Hm]]]].
  unfold _encrypt, Caesar_encrypt, Unicode_encrypt.
  now rewrite Hc, Hn, Hw, Hm.
Qed.

Lemma _decrypt_frame `{UnicodeData} (a b : Cipher) :
  same_frame a b -> encrypted_text a = encrypted_text b ->
  _decrypt a = _decrypt b.
Proof.
  intros [Hc [Hn [_ [Hw Hm]]]] He.
  unfold _decrypt, Caesar_decrypt, Unicode_decrypt.
  now rewrite Hc, Hn, Hm, He.
Qed.

Lemma perform_caches `{UnicodeData} (job self : Cipher) (c : call) :
  same_frame job self -> caches_from job self ->
  caches_from job (after (perform c self)).
Proof.
  intros Hf [He Hd]. unfold caches_from. destruct c; simpl.
  - unfold encrypt. destruct (encrypted_text self) as [e|] eqn:Ee.
    + simpl. rewrite Ee. split; [exact He | exact Hd].
    + destruct (_encrypt self) as [x|s] eqn:Es; simpl.
      * rewrite Ee. split; [exact He | exact Hd].
      * split.
        -- intros e E. injection E as <-.
           now rewrite (_encrypt_frame job self Hf).
        -- intros d D. destruct (Hd d D) as [e [E _]]. discriminate E.
  - unfold decrypt. destruct (encrypted_text self) as [e|] eqn:Ee.
    + destruct (decrypted_text self) as [d|] eqn:Ed.
      * simpl. rewrite Ee, Ed. split; [exact He | exact Hd].
      * destruct (_decrypt self) as [x|s] eqn:Es; simpl.
        -- rewrite Ee, Ed. split; [exact He | exact Hd].
        -- rewrite Ee. split; [exact He|].
           intros d D. injection D as <-. exists e. split; [reflexivity|].
           rewrite <- Es. apply _decrypt_frame.
           ++ unfold same_frame in *. simpl. exact Hf.
           ++ simpl. now rewrite Ee.
    + simpl. rewrite Ee. split; [exact He | exact Hd].
  - split; [exact He | exact Hd].
Qed.

Lemma run_caches `{UnicodeData} (job : Cipher) (cs : list call) (self : Cipher) :
  same_frame job self -> caches_from job self ->
  caches_from job (fst (run cs self)).
Proof.
  revert self. induction cs as [|c cs IH]; intros self Hf Hc.
  - exact Hc.
  - rewrite run_cons. cbn [fst]. apply IH.
    + eapply same_frame_trans; [exact Hf | apply perform_frame].
    + now apply perform_caches.
Qed.

Lemma fresh_caches `{UnicodeData} (job : Cipher) :
  encrypted_text job = None -> decrypted_text job = None -> caches_from job job.
Proof. intros He Hd. split; intros x Hx; congruence. Qed.

(** X5: whatever the order of the calls on a Caesar job, [encrypted_text]
    is either empty or the tokens of the text, character by character
    through the forward map, joined by single spaces; [decrypted_text] is
    empty unless [encrypted_text] is filled, and then holds the tokens of
    the encrypted text through the backward map. *)
Theorem caesar_cache_contents `{UnicodeData}
    (shift : Z) (txt : str) (job : Cipher) (cs : list call) :
  Caesar (VInt shift) txt = inr job ->
  let self := fst (run cs job) in
  let e := join space (map (map (caesar_forward shift)) (split txt)) in
  (encrypted_text self = None \/ encrypted_text self = Some e)
  /\ (decrypted_text self = None
      \/ encrypted_text self = Some e
         /\ decrypted_text self
            = Some (join space (map (map (caesar_backward shift)) (split e)))).
Proof.
  intros Hj self e. rewrite Caesar_int in Hj.
  destruct ((0 <=? shift) && (shift <=? 25)); [|discriminate].
  injection Hj as <-.
  set (job := Cipher_init Caesar_class shift txt) in *.
  destruct (run_caches job cs job (same_frame_refl job)
              (fresh_caches job eq_refl eq_refl)) as [He Hd].
  fold self in He, Hd.
  assert (E : forall x, encrypted_text self = Some x -> x = e).
  { intros x Hx. specialize (He x Hx). unfold _encrypt in He. simpl in He.
    rewrite Caesar_encrypt_value in He. now injection He as <-. }
  split.
  - destruct (encrypted_text self) as [x|] eqn:Ex; [right | now left].
    now rewrite (E x eq_refl).
  - destruct (decrypted_text self) as [d|] eqn:Ed; [right | now left].
    destruct (Hd d eq_refl) as [x [Hx Hdx]].
    pose proof (E x Hx) as ->. split; [exact Hx|].
    unfold _decrypt in Hdx. simpl in Hdx.
    erewrite Caesar_decrypt_value in Hdx by reflexivity.
    now injection Hdx as <-.
Qed.

Lemma caesar_cache_contents_witness :
  Caesar (VInt 3) (of_string "ab  c") = inr (Cipher_init Caesar_class 3 (of_string "ab  c"))
  /\ encrypted_text
       (fst (@run latin1_only [Call_decrypt; Call_encrypt; Call_get_text]
               (Cipher_init Caesar_class 3 (of_string "ab  c"))))
     = Some (of_string "de f").
Proof.
  split; [reflexivity|].
  destruct (@caesar_cache_contents latin1_only 3 (of_string "ab  c") _
              [Call_decrypt; Call_encrypt; Call_get_text] eq_refl) as [[Hn | Hs] _].
  - discriminate Hn.
  - exact Hs.
Defined.

(** X6: the same for a [Unicode_Substitution] job, with the maps
    [c -> (c + n) mod 65535] and [c -> (c - n) mod 65535]. *)
Theorem unicode_cache_contents `{UnicodeData}
    (shift : Z) (txt : str) (job : Cipher) (cs : list call) :
  Unicode_Substitution (VInt shift) txt = inr job ->
  let self := fst (run cs job) in
  let e := join space (map (map (unicode_forward shift)) (split txt)) in
  (encrypted_text self = None \/ encrypted_text self = Some e)
  /\ (decrypted_text self = None
      \/ encrypted_text self = Some e
         /\ decrypted_text self
            = Some (join space (map (map (unicode_backward shift)) (split e)))).
Proof.
  intros Hj self e. rewrite Unicode_Substitution_int in Hj.
  destruct ((0 <=? shift) && (shift <=? 65534)); [|discriminate].
  injection Hj as <-.
  set (job := set_max_ord (Cipher_init Unicode_Substitution_class shift txt) 65535) in *.
  destruct (run_caches job cs job (same_frame_refl job)
              (fresh_caches job eq_refl eq_refl)) as [He Hd].
  fold self in He, Hd.
  assert (E : forall x, encrypted_text self = Some x -> x = e).
  { intros x Hx. specialize (He x Hx). unfold _encrypt in He. simpl in He.
    rewrite Unicode_encrypt_value in He by reflexivity. now injection He as <-. }
  split.
  - destruct (encrypted_text self) as [x|] eqn:Ex; [right | now left].
    now rewrite (E x eq_refl).
  - destruct (decrypted_text self) as [d|] eqn:Ed; [right | now left].
    destruct (Hd d eq_refl) as [x [Hx Hdx]].
    pose proof (E x Hx) as ->. split; [exact Hx|].
    unfold _decrypt in Hdx. simpl in Hdx.
    erewrite Unicode_decrypt_value in Hdx by reflexivity.
    now injection Hdx as <-.
Qed.

Lemma unicode_cache_contents_witness :
  Unicode_Substitution (VInt 1) (of_string "ab  c")
  = inr (set_max_ord (Cipher_init Unicode_Substitution_class 1 (of_string "ab  c")) 65535)
  /\ encrypted_text
       (fst (@run latin1_only [Call_decrypt; Call_encrypt; Call_get_text]
               (set_max_ord (Cipher_init Unicode_Substitution_class 1 (of_string "ab  c"))
                  65535)))
     = Some (of_string "bc d").
Proof.
  split; [reflexivity|].
  destruct (@unicode_cache_contents latin1_only 1 (of_string "ab  c") _
              [Call_decrypt; Call_encrypt; Call_get_text] eq_refl) as [[Hn | Hs] _].
  - discriminate Hn.
  - exact Hs.
Defined.

(** ** The Caesar maps on one character *)

Lemma caesar_backward_forward_lower `{UnicodeData} (n : Z) (c : char) :
  97 <= c <= 122 ->
  caesar_backward n (caesar_forward n c) = 97 + (c - 97) mod 25.
Proof.
  intros Hc. unfold caesar_forward. rewrite islower_ascii_lower by lia.
  pose proof (Z.mod_pos_bound (c + n - 97) 25 ltac:(lia)) as Hm.
  unfold caesar_backward. rewrite islower_ascii_lower by lia.
  replace ((c + n - 97) mod 25 + 97 - n - 97) with ((c + n - 97) mod 25 - n) by lia.
  rewrite Zminus_mod_idemp_l.
  replace (c + n - 97 - n) with (c - 97) by lia. lia.
Qed.

Lemma caesar_backward_forward_upper `{UnicodeData} (n : Z) (c : char) :
  65 <= c <= 90 ->
  caesar_backward n (caesar_forward n c) = 65 + (c - 65) mod 25.
Proof.
  intros Hc. unfold caesar_forward.
  rewrite islower_ascii_upper, isupper_ascii_upper by lia.
  pose proof (Z.mod_pos_bound (c + n - 65) 25 ltac:(lia)) as Hm.
  unfold caesar_backward.
  rewrite islower_ascii_upper, isupper_ascii_upper by lia.
  replace ((c + n - 65) mod 25 + 65 - n - 65) with ((c + n - 65) mod 25 - n) by lia.
  rewrite Zminus_mod_idemp_l.
  replace (c + n - 65 - n) with (c - 65) by lia. lia.
Qed.

(** X7: for every integer shift, decrypting the encryption of a letter
    returns the letter itself for [a]..[y] and [A]..[Y], and returns [a]
    for [z] and [A] for [Z]. *)
Theorem caesar_char_round_trip `{UnicodeData} (shift : Z) (c : char) :
  ascii_letter c = true ->
  (d <- caesar_encrypt_char shift c ;; caesar_decrypt_char shift d)
  = inr (if c =? lit "z"%char then lit "a"%char
         else if c =? lit "Z"%char then lit "A"%char else c).
Proof.
  intros Hc. rewrite caesar_encrypt_char_value. unfold bind.
  rewrite caesar_decrypt_char_value. f_equal.
  rewrite lit_a, lit_z, lit_A, lit_Z.
  unfold ascii_letter, ascii_lower, ascii_upper in Hc.
  rewrite lit_a, lit_z, lit_A, lit_Z in Hc.
  apply orb_true_iff in Hc.
  destruct Hc as [Hc | Hc]; apply andb_true_iff in Hc;
    rewrite !Z.leb_le in Hc.
  - rewrite caesar_backward_forward_lower by lia.
    destruct (Z.eqb_spec c 122) as [-> | Hz]; [reflexivity|].
    destruct (Z.eqb_spec c 90); [lia|].
    rewrite Z.mod_small; lia.
  - rewrite caesar_backward_forward_upper by lia.
    destruct (Z.eqb_spec c 122); [lia|].
    destruct (Z.eqb_spec c 90) as [-> | Hz]; [reflexivity|].
    rewrite Z.mod_small; lia.
Qed.

Lemma caesar_char_round_trip_witness :
  (d <- @caesar_encrypt_char latin1_only 7 (lit "z"%char) ;;
   @caesar_decrypt_char latin1_only 7 d) = inr (lit "a"%char)
  /\ (d <- @caesar_encrypt_char latin1_only 7 (lit "y"%char) ;;
      @caesar_decrypt_char latin1_only 7 d) = inr (lit "y"%char).
Proof.
  split.
  - exact (@caesar_char_round_trip latin1_only 7 (lit "z"%char) eq_refl).
  - exact (@caesar_char_round_trip latin1_only 7 (lit "y"%char) eq_refl).
Defined.

(** X8: the forward map is not injective: for every integer shift, [a]
    and [z] are encrypted to the same character, and so are [A] and [Z]. *)
Theorem caesar_a_z_collide `{UnicodeData} (shift : Z) :
  caesar_encrypt_char shift (lit "z"%char) = caesar_encrypt_char shift (lit "a"%char)
  /\ caesar_encrypt_char shift (lit "Z"%char) = caesar_encrypt_char shift (lit "A"%char)
  /\ lit "z"%char <> lit "a"%char /\ lit "Z"%char <> lit "A"%char.
Proof.
  rewrite lit_a, lit_z, lit_A, lit_Z.
  rewrite !caesar_encrypt_lower by (apply islower_ascii_lower; lia).
  rewrite !caesar_encrypt_upper
    by (try apply islower_ascii_upper; try apply isupper_ascii_upper; lia).
  repeat split; try lia; f_equal; f_equal.
  - replace (122 + shift - 97) with (97 + shift - 97 + 1 * 25) by lia.
    apply Z_mod_plus_full.
  - replace (90 + shift - 65) with (65 + shift - 65 + 1 * 25) by lia.
    apply Z_mod_plus_full.
Qed.

(** X9: decryption by [n] is encryption by [25 - n], on every character
    and for every integer [n]. *)
Theorem caesar_decrypt_is_encrypt_complement `{UnicodeData} (shift : Z) (c : char) :
  caesar_decrypt_char shift c = caesar_encrypt_char (25 - shift) c.
Proof.
  rewrite caesar_decrypt_char_value, caesar_encrypt_char_value. f_equal.
  unfold caesar_backward, caesar_forward.
  destruct (islower c); [|destruct (isupper c)]; [| |reflexivity]; f_equal.
  - replace (c + (25 - shift) - 97) with (c - shift - 97 + 1 * 25) by lia.
    symmetry. apply Z_mod_plus_full.
  - replace (c + (25 - shift) - 65) with (c - shift - 65 + 1 * 25) by lia.
    symmetry. apply Z_mod_plus_full.
Qed.

(** X10: the shifts 25 and 0 encrypt every text to the same string. *)
Theorem caesar_shift_25_is_shift_0 `{UnicodeData} (txt : str) :
  encrypt_new (Caesar (VInt 25) txt) = encrypt_new (Caesar (VInt 0) txt).
Proof.
  rewrite !caesar_encrypt_new by lia. do 2 f_equal.
  apply map_ext. intros w. apply map_ext. intros c.
  unfold caesar_forward.
  destruct (islower c); [|destruct (isupper c)]; [| |reflexivity]; f_equal.
  - replace (c + 25 - 97) with (c + 0 - 97 + 1 * 25) by lia.
    apply Z_mod_plus_full.
  - replace (c + 25 - 65) with (c + 0 - 65 + 1 * 25) by lia.
    apply Z_mod_plus_full.
Qed.

(** ** The Unicode maps on one character *)

(** X11: for every integer shift, decrypting the encryption of a character
    returns its code point modulo 65535: the character itself exactly when
    its code point is below 65535. *)
Theorem unicode_char_round_trip (shift : Z) (c : char) :
  (d <- unicode_encrypt_char shift 65535 c ;; unicode_decrypt_char shift 65535 d)
  = inr (c mod 65535)
  /\ (0 <= c -> (c mod 65535 = c <-> c < 65535)).
Proof.
  split.
  - rewrite unicode_encrypt_char_value. unfold bind.
    rewrite unicode_decrypt_char_value. f_equal.
    unfold unicode_backward, unicode_forward.
    rewrite Zminus_mod_idemp_l. f_equal. lia.
  - intros Hc. pose proof (Z.mod_pos_bound c 65535 ltac:(lia)) as Hm. split.
    + intros E. lia.
    + intros Hlt. apply Z.mod_small. lia.
Qed.

(** X12: decryption by [n] is encryption by [65535 - n], on every
    character and for every integer [n]. *)
Theorem unicode_decrypt_is_encrypt_complement (shift : Z) (c : char) :
  unicode_decrypt_char shift 65535 c = unicode_encrypt_char (65535 - shift) 65535 c.
Proof.
  unfold unicode_decrypt_char, unicode_encrypt_char, ord. f_equal.
  replace (c + (65535 - shift)) with (c - shift + 1 * 65535) by lia.
  symmetry. apply Z_mod_plus_full.
Qed.

(** ** Tokens and normalised texts *)

(** A character of a token of [s] is a character of [s] that is not
    whitespace. *)
Lemma token_chars (s w : str) (c : char) :
  In w (split s) -> In c w -> In c s /\ isspace c = false.
Proof.
  intros Hw Hc.
  assert (Hin : In c (List.concat (split s))).
  { apply in_concat. exists w. now split. }
  rewrite concat_split in Hin. apply filter_In in Hin.
  destruct Hin as [Hs Hn]. split; [exact Hs|].
  now apply negb_true_iff in Hn.
Qed.

Lemma tokens_forall (P : char -> Prop) (s : str) :
  Forall (fun c => isspace c = true \/ P c) s -> Forall (Forall P) (split s).
Proof.
  intros Hs. apply Forall_forall. intros w Hw.
  apply Forall_forall. intros c Hc.
  destruct (token_chars s w c Hw Hc) as [Hin Hn].
  rewrite Forall_forall in Hs. destruct (Hs c Hin) as [Hsp | HP]; [congruence | exact HP].
Qed.

(** Joining the tokens of a single-spaced text gives the text back. *)
Lemma join_split_from (s cur : str) :
  spaced s = true ->
  (cur = [] -> match s with [] => True | c :: _ => isspace c = false end) ->
  join space (split_from cur s) = rev cur ++ s.
Proof.
  revert cur. induction s as [|c s IH]; intros cur Hs Hh.
  - simpl. destruct cur as [|d cur]; [reflexivity|].
    simpl. now rewrite app_nil_r.
  - simpl in Hs. simpl. destruct (isspace c) eqn:Ec.
    + destruct cur as [|d cur]; [specialize (Hh eq_refl); congruence|].
      apply andb_true_iff in Hs. destruct Hs as [Hs Hs'].
      apply andb_true_iff in Hs. destruct Hs as [Hc Hd].
      apply Z.eqb_eq in Hc. subst c.
      destruct s as [|e s]; [discriminate|].
      apply negb_true_iff in Hd.
      specialize (IH [] Hs' (fun _ => Hd)). simpl rev in IH. simpl app in IH.
      destruct (split_from [] (e :: s)) as [|x xs] eqn:Ex; [discriminate IH|].
      change (join space (rev (d :: cur) :: x :: xs))
        with (rev (d :: cur) ++ 32 :: join space (x :: xs)).
      now rewrite IH.
    + rewrite IH; [|exact Hs|discriminate].
      simpl. now rewrite <- app_assoc.
Qed.

Lemma join_split_single_spaced (s : str) :
  single_spaced s = true -> join space (split s) = s.
Proof.
  intros Hs. unfold split. rewrite join_split_from; [reflexivity| |].
  - destruct s as [|c s]; [reflexivity|].
    unfold single_spaced in Hs. now apply andb_true_iff in Hs.
  - intros _. destruct s as [|c s]; [exact I|].
    unfold single_spaced in Hs. apply andb_true_iff in Hs.
    now apply negb_true_iff.
Qed.

(** X13: the tokens a job is built with are non-empty and free of
    whitespace, together they are the characters of the text that are not
    whitespace, in order; joining them by single spaces gives a
    single-spaced string, which is the text itself when the text is
    single-spaced already. *)
Theorem tokens_of_construction (k : class) (i : Z) (txt : str) :
  let ws := word_tokens (Cipher_init k i txt) in
  Forall token ws
  /\ List.concat ws = filter (fun c => negb (isspace c)) txt
  /\ single_spaced (join space ws) = true
  /\ split (join space ws) = ws
  /\ (single_spaced txt = true -> join space ws = txt).
Proof.
  simpl. split; [apply split_tokens|]. split; [apply concat_split|].
  split; [apply single_spaced_join, split_tokens|].
  split; [apply split_join, split_tokens | apply join_split_single_spaced].
Qed.

Lemma tokens_of_construction_witness :
  single_spaced (of_string "to be") = true
  /\ join space (word_tokens (Cipher_init Caesar_class 1 (of_string "to be")))
     = of_string "to be".
Proof.
  split; [reflexivity|].
  destruct (tokens_of_construction Caesar_class 1 (of_string "to be"))
    as [_ [_ [_ [_ Hj]]]].
  apply Hj. reflexivity.
Defined.

(** ** Whole texts *)

Lemma caesar_backward_forward_stable `{UnicodeData} (n : Z) (c : char) :
  caesar_stable c -> caesar_backward n (caesar_forward n c) = c.
Proof.
  intros [Hc | [Hc | [Hl Hu]]].
  - apply caesar_backward_forward. now left.
  - apply caesar_backward_forward. now right.
  - unfold caesar_forward. rewrite Hl, Hu.
    unfold caesar_backward. now rewrite Hl, Hu.
Qed.

(** X14: for a valid shift and a text in which every character is
    whitespace, a letter other than [z] and [Z], or a character without
    case, [encrypt()] then [decrypt()] returns the tokens of the text joined
    by single spaces: the text itself when it is single-spaced. *)
Theorem caesar_round_trip_stable `{UnicodeData} (shift : Z) (txt : str) :
  0 <= shift <= 25 ->
  Forall (fun c => isspace c = true \/ caesar_stable c) txt ->
  encrypt_then_decrypt (Caesar (VInt shift) txt) = inr (join space (split txt))
  /\ (single_spaced txt = true ->
      encrypt_then_decrypt (Caesar (VInt shift) txt) = inr txt).
Proof.
  intros Hs Ht.
  assert (E : encrypt_then_decrypt (Caesar (VInt shift) txt)
              = inr (join space (split txt))).
  { rewrite caesar_encrypt_then_decrypt by assumption.
    rewrite split_join
      by (apply map_tokens; [apply caesar_forward_nonspace | apply split_tokens]).
    erewrite map_map_inverse; [reflexivity | | apply tokens_forall; exact Ht].
    intros c Hc. now apply caesar_backward_forward_stable. }
  split; [exact E|].
  intros Hn. now rewrite E, join_split_single_spaced.
Qed.

Lemma caesar_round_trip_stable_witness :
  0 <= 20 <= 25
  /\ @encrypt_then_decrypt latin1_only (Caesar (VInt 20) (of_string "Attack at dawn, 5 am!"))
     = inr (of_string "Attack at dawn, 5 am!").
Proof.
  split; [lia|].
  refine (proj2 (@caesar_round_trip_stable latin1_only 20
                   (of_string "Attack at dawn, 5 am!") ltac:(lia) _) eq_refl).
  let l := eval vm_compute in (of_string "Attack at dawn, 5 am!") in
  change (of_string "Attack at dawn, 5 am!") with l.
  repeat (apply Forall_cons;
          [first [ left; reflexivity
                 | right; left; lia
                 | right; right; left; lia
                 | right; right; right; split; reflexivity ]|]).
  apply Forall_nil.
Defined.

(** X15: for a valid shift and a text in which every character is
    whitespace or a code point below 65535 that the shift does not move
    onto a whitespace code point, [encrypt()] then [decrypt()] returns the
    tokens of the text joined by single spaces: the text itself when it is
    single-spaced. *)
Theorem unicode_round_trip_stable `{UnicodeData} (shift : Z) (txt : str) :
  0 <= shift <= 65534 ->
  Forall (fun c => isspace c = true
                   \/ (0 <= c < 65535 /\ isspace (unicode_forward shift c) = false))
    txt ->
  encrypt_then_decrypt (Unicode_Substitution (VInt shift) txt)
  = inr (join space (split txt))
  /\ (single_spaced txt = true ->
      encrypt_then_decrypt (Unicode_Substitution (VInt shift) txt) = inr txt).
Proof.
  intros Hs Ht.
  assert (E : encrypt_then_decrypt (Unicode_Substitution (VInt shift) txt)
              = inr (join space (split txt))).
  { apply unicode_round_trip_without_whitespace_images; [exact Hs|].
    apply tokens_forall. exact Ht. }
  split; [exact E|].
  intros Hn. now rewrite E, join_split_single_spaced.
Qed.

Lemma unicode_round_trip_stable_witness :
  0 <= 6000 <= 65534
  /\ @encrypt_then_decrypt latin1_only
       (Unicode_Substitution (VInt 6000) (of_string "Attack at dawn, 5 am!"))
     = inr (of_string "Attack at dawn, 5 am!").
Proof.
  split; [lia|].
  refine (proj2 (@unicode_round_trip_stable latin1_only 6000
                   (of_string "Attack at dawn, 5 am!") ltac:(lia) _) eq_refl).
  let l := eval vm_compute in (of_string "Attack at dawn, 5 am!") in
  change (of_string "Attack at dawn, 5 am!") with l.
  repeat (apply Forall_cons;
          [first [ left; reflexivity | right; split; [lia | reflexivity] ]|]).
  apply Forall_nil.
Defined.

Lemma in_join (c : char) (ws : list str) :
  In c (join space ws) -> c = 32 \/ exists w, In w ws /\ In c w.
Proof.
  induction ws as [|w ws IH]; simpl; [contradiction|].
  destruct ws as [|w2 ws].
  - intros Hc. right. exists w. auto.
  - intros Hc. apply in_app_or in Hc. destruct Hc as [Hc | Hc].
    + right. exists w. auto.
    + change (In c (32 :: join space (w2 :: ws))) in Hc.
      destruct Hc as [Hc | Hc]; [now left|].
      destruct (IH Hc) as [E | [x [Hx Hcx]]]; [now left|].
      right. exists x. split; [now right | exact Hcx].
Qed.

Lemma in_join_map (f : char -> char) (c : char) (ws : list str) :
  In c (join space (map (map f) ws)) -> c = 32 \/ exists d, c = f d.
Proof.
  intros Hc. destruct (in_join c _ Hc) as [E | [w [Hw Hcw]]]; [now left|].
  right. apply in_map_iff in Hw. destruct Hw as [u [<- _]].
  apply in_map_iff in Hcw. destruct Hcw as [d [<- _]]. now exists d.
Qed.

Lemma length_join_map (f : char -> char) (ws : list str) :
  List.length (join space (map (map f) ws)) = List.length (join space ws).
Proof.
  induction ws as [|w ws IH]; [reflexivity|].
  destruct ws as [|w2 ws].
  - simpl. apply length_map.
  - change (join space (map (map f) (w :: w2 :: ws)))
      with (map f w ++ 32 :: join space (map (map f) (w2 :: ws))).
    change (join space (w :: w2 :: ws)) with (w ++ 32 :: join space (w2 :: ws)).
    rewrite !length_app, length_map. cbn [List.length]. now rewrite IH.
Qed.

Lemma length_join_split_from (s cur : str) :
  (List.length (join space (split_from cur s)) <= List.length cur + List.length s)%nat.
Proof.
  revert cur. induction s as [|c s IH]; intros cur.
  - simpl. destruct cur; simpl; [lia|]. rewrite length_app, length_rev. simpl. lia.
  - simpl. destruct (isspace c).
    + destruct cur as [|d cur].
      * specialize (IH []). simpl in IH. lia.
      * specialize (IH []). simpl in IH.
        destruct (split_from [] s) as [|x xs].
        -- simpl. rewrite length_app, length_rev. simpl. lia.
        -- change (join space (rev (d :: cur) :: x :: xs))
             with (rev (d :: cur) ++ 32 :: join space (x :: xs)).
           rewrite length_app, length_rev. simpl List.length in *. lia.
    + specialize (IH (c :: cur)). simpl in IH. lia.
Qed.

Lemma split_all_space (s : str) :
  Forall (fun c => isspace c = true) s -> split s = [].
Proof.
  unfold split. induction 1 as [|c s Hc _ IH]; simpl; [reflexivity|].
  now rewrite Hc.
Qed.

Lemma constructed_cases (job : Cipher) (v : value) (txt : str) :
  Caesar v txt = inr job \/ Unicode_Substitution v txt = inr job ->
  exists i, v = VInt i
            /\ (job = Cipher_init Caesar_class i txt /\ 0 <= i <= 25
                \/ job = set_max_ord (Cipher_init Unicode_Substitution_class i txt) 65535
                   /\ 0 <= i <= 65534).
Proof.
  intros Hj. destruct (isinstance_int v) eqn:Ev.
  - apply isinstance_int_spec in Ev. destruct Ev as [i ->]. exists i.
    split; [reflexivity|].
    rewrite Caesar_int, Unicode_Substitution_int in Hj.
    destruct Hj as [Hj | Hj]; [left | right].
    + destruct ((0 <=? i) && (i <=? 25)) eqn:E; [|discriminate].
      apply andb_true_iff in E. rewrite !Z.leb_le in E.
      injection Hj as <-. auto.
    + destruct ((0 <=? i) && (i <=? 65534)) eqn:E; [|discriminate].
      apply andb_true_iff in E. rewrite !Z.leb_le in E.
      injection Hj as <-. auto.
  - rewrite Caesar_not_int, Unicode_Substitution_not_int in Hj by assumption.
    destruct Hj; discriminate.
Qed.

(** X16: for a job of either subclass, [encrypt()] returns a string
    exactly as long as the tokens of the text joined by single spaces,
    hence never longer than the text: characters are mapped one to one and
    only whitespace is dropped. *)
Theorem encrypt_preserves_length `{UnicodeData} (v : value) (txt : str) (job : Cipher) :
  Caesar v txt = inr job \/ Unicode_Substitution v txt = inr job ->
  exists out,
    returned (encrypt job) = inr out
    /\ List.length out = List.length (join space (split txt))
    /\ (List.length out <= List.length txt)%nat.
Proof.
  intros Hj. pose proof (length_join_split_from txt []) as Hle. simpl in Hle.
  fold (split txt) in Hle.
  destruct (constructed_cases job v txt Hj) as [i [_ [[-> Hi] | [-> Hi]]]].
  - eexists. split.
    + unfold encrypt, _encrypt. simpl. rewrite Caesar_encrypt_value. reflexivity.
    + simpl. rewrite length_join_map. split; [reflexivity | exact Hle].
  - eexists. split.
    + unfold encrypt, _encrypt. simpl.
      rewrite Unicode_encrypt_value by reflexivity. reflexivity.
    + simpl. rewrite length_join_map. split; [reflexivity | exact Hle].
Qed.

Lemma encrypt_preserves_length_witness :
  exists out,
    returned (@encrypt latin1_only (Cipher_init Caesar_class 4 (of_string " a  bc ")))
    = inr out
    /\ List.length out = 4%nat.
Proof.
  destruct (@encrypt_preserves_length latin1_only (VInt 4) (of_string " a  bc ")
              (Cipher_init Caesar_class 4 (of_string " a  bc "))
              (or_introl eq_refl)) as [out [Ho [Hl _]]].
  exists out. split; [exact Ho | exact Hl].
Defined.

(** X17: on a text that is empty or all whitespace, for a job of either
    subclass, [encrypt()] returns the empty string and [decrypt()] after it
    returns the empty string too: the guard of [decrypt] tests for [None],
    and an empty encrypted text passes it. *)
Theorem blank_text_round_trip `{UnicodeData} (v : value) (txt : str) (job : Cipher) :
  Caesar v txt = inr job \/ Unicode_Substitution v txt = inr job ->
  Forall (fun c => isspace c = true) txt ->
  encrypt job = Outcome (inr []) (set_encrypted_text job []) [Helper_encrypt]
  /\ decrypt (after (encrypt job))
     = Outcome (inr [])
         (set_decrypted_text (set_encrypted_text job []) []) [Helper_decrypt].
Proof.
  intros Hj Ht. pose proof (split_all_space txt Ht) as Hs.
  destruct (constructed_cases job v txt Hj) as [i [_ [[-> Hi] | [-> Hi]]]].
  - assert (E : encrypt (Cipher_init Caesar_class i txt)
                = Outcome (inr []) (set_encrypted_text (Cipher_init Caesar_class i txt) [])
                    [Helper_encrypt]).
    { unfold encrypt, _encrypt. simpl. rewrite Caesar_encrypt_value. simpl.
      now rewrite Hs. }
    split; [exact E|]. rewrite E. reflexivity.
  - set (job := set_max_ord (Cipher_init Unicode_Substitution_class i txt) 65535).
    assert (E : encrypt job
                = Outcome (inr []) (set_encrypted_text job []) [Helper_encrypt]).
    { unfold encrypt, _encrypt. simpl.
      rewrite Unicode_encrypt_value by reflexivity. simpl. now rewrite Hs. }
    split; [exact E|]. rewrite E. reflexivity.
Qed.

Lemma blank_text_round_trip_witness :
  returned (@decrypt latin1_only
              (after (@encrypt latin1_only (Cipher_init Caesar_class 4 [32; 9; 10]))))
  = inr [].
Proof.
  destruct (@blank_text_round_trip latin1_only (VInt 4) [32; 9; 10]
              (Cipher_init Caesar_class 4 [32; 9; 10]) (or_introl eq_refl))
    as [_ Hd].
  - repeat constructor.
  - now rewrite Hd.
Defined.

Lemma caesar_forward_not_z `{UnicodeData} (n : Z) (c : char) :
  caesar_forward n c <> 122 /\ caesar_forward n c <> 90.
Proof.
  unfold caesar_forward.
  destruct (islower c) eqn:El; [|destruct (isupper c) eqn:Eu].
  - pose proof (Z.mod_pos_bound (c + n - 97) 25 ltac:(lia)). lia.
  - pose proof (Z.mod_pos_bound (c + n - 65) 25 ltac:(lia)). lia.
  - split; intros ->.
    + rewrite islower_ascii_lower in El by lia. discriminate.
    + rewrite isupper_ascii_upper in Eu by lia. discriminate.
Qed.

Lemma caesar_backward_not_z `{UnicodeData} (n : Z) (c : char) :
  caesar_backward n c <> 122 /\ caesar_backward n c <> 90.
Proof.
  unfold caesar_backward.
  destruct (islower c) eqn:El; [|destruct (isupper c) eqn:Eu].
  - pose proof (Z.mod_pos_bound (c - n - 97) 25 ltac:(lia)). lia.
  - pose proof (Z.mod_pos_bound (c - n - 65) 25 ltac:(lia)). lia.
  - split; intros ->.
    + rewrite islower_ascii_lower in El by lia. discriminate.
    + rewrite isupper_ascii_upper in Eu by lia. discriminate.
Qed.

(** X18: for every text and valid shift, neither the string [encrypt()]
    returns nor the string [decrypt()] returns after it contains [z] or
    [Z], whether or not the text does. *)
Theorem caesar_output_never_contains_z `{UnicodeData} (shift : Z) (txt : str) :
  0 <= shift <= 25 ->
  exists e d,
    encrypt_new (Caesar (VInt shift) txt) = inr e
    /\ encrypt_then_decrypt (Caesar (VInt shift) txt) = inr d
    /\ ~ In (lit "z"%char) e /\ ~ In (lit "Z"%char) e
    /\ ~ In (lit "z"%char) d /\ ~ In (lit "Z"%char) d.
Proof.
  intros Hs. rewrite lit_z, lit_Z. do 2 eexists.
  split; [now apply caesar_encrypt_new|].
  split; [now apply caesar_encrypt_then_decrypt|].
  repeat split; intros Hin; apply in_join_map in Hin;
    destruct Hin as [E | [c E]]; try discriminate E.
  - now apply (proj1 (caesar_forward_not_z shift c)).
  - now apply (proj2 (caesar_forward_not_z shift c)).
  - now apply (proj1 (caesar_backward_not_z shift c)).
  - now apply (proj2 (caesar_backward_not_z shift c)).
Qed.

Lemma caesar_output_never_contains_z_witness :
  0 <= 1 <= 25
  /\ exists e d,
      @encrypt_new latin1_only (Caesar (VInt 1) (of_string "Zz")) = inr e
      /\ @encrypt_then_decrypt latin1_only (Caesar (VInt 1) (of_string "Zz")) = inr d
      /\ ~ In (lit "z"%char) e /\ ~ In (lit "Z"%char) e
      /\ ~ In (lit "z"%char) d /\ ~ In (lit "Z"%char) d.
Proof.
  split; [lia|].
  exact (@caesar_output_never_contains_z latin1_only 1 (of_string "Zz") ltac:(lia)).
Defined.

(** X19: for every text and valid shift, every character of the string
    [encrypt()] returns on a [Unicode_Substitution] job, and of the string
    [decrypt()] returns after it, has a code point below 65535, whatever the
    code points of the text. *)
Theorem unicode_output_below_max_ord `{UnicodeData} (shift : Z) (txt : str) :
  0 <= shift <= 65534 ->
  exists e d,
    encrypt_new (Unicode_Substitution (VInt shift) txt) = inr e
    /\ encrypt_then_decrypt (Unicode_Substitution (VInt shift) txt) = inr d
    /\ Forall (fun c => 0 <= c < 65535) e
    /\ Forall (fun c => 0 <= c < 65535) d.
Proof.
  intros Hs. do 2 eexists.
  split; [|split; [now apply unicode_encrypt_then_decrypt|]].
  - rewrite Unicode_Substitution_int.
    replace ((0 <=? shift) && (shift <=? 65534)) with true
      by (symmetry; apply andb_true_iff; split; apply Z.leb_le; lia).
    unfold encrypt_new, bind, encrypt, _encrypt. simpl.
    rewrite Unicode_encrypt_value by reflexivity. reflexivity.
  - split; apply Forall_forall; intros c Hin; apply in_join_map in Hin;
      destruct Hin as [-> | [d ->]]; try lia.
    + unfold unicode_forward. apply Z.mod_pos_bound. lia.
    + unfold unicode_backward. apply Z.mod_pos_bound. lia.
Qed.

Lemma unicode_output_below_max_ord_witness :
  0 <= 6000 <= 65534
  /\ exists e d,
      @encrypt_new latin1_only (Unicode_Substitution (VInt 6000) [128512; 65535])
      = inr e
      /\ @encrypt_then_decrypt latin1_only
           (Unicode_Substitution (VInt 6000) [128512; 65535]) = inr d
      /\ Forall (fun c => 0 <= c < 65535) e
      /\ Forall (fun c => 0 <= c < 65535) d.
Proof.
  split; [lia|].
  exact (@unicode_output_below_max_ord latin1_only 6000 [128512; 65535] ltac:(lia)).
Defined.

Lemma caches_never_overwritten_witness :
  encrypted_text
    (fst (@run latin1_only [Call_encrypt; Call_decrypt; Call_encrypt]
            (set_encrypted_text (Cipher_init Caesar_class 2 (of_string "hi"))
               (of_string "jk"))))
  = Some (of_string "jk").
Proof.
  destruct (@caches_never_overwritten latin1_only
              (set_encrypted_text (Cipher_init Caesar_class 2 (of_string "hi"))
                 (of_string "jk"))
              [Call_encrypt; Call_decrypt; Call_encrypt]) as [He _].
  apply He. reflexivity.
Defined.

Lemma unicode_char_round_trip_witness :
  (d <- unicode_encrypt_char 6000 65535 128512 ;; unicode_decrypt_char 6000 65535 d)
  = inr 62977
  /\ (65 mod 65535 = 65 <-> 65 < 65535).
Proof.
  destruct (unicode_char_round_trip 6000 128512) as [Hr _].
  destruct (unicode_char_round_trip 6000 65) as [_ Hi].
  split; [exact Hr | apply Hi; lia].
Defined.

(** ** Memoisation *)

(** Once a cache is filled, every later call returns its content, invokes
    no helper and leaves the job as it is, whatever was called in between. *)
Lemma encrypt_stable `{UnicodeData} (a : Cipher) (s : str) (cs : list call) :
  encrypted_text a = Some s ->
  encrypt (fst (run cs a)) = Outcome (inr s) (fst (run cs a)) [].
Proof.
  intros Ha. apply encrypt_cached.
  destruct (run_frame cs a) as [_ [He _]]. now apply He.
Qed.

Lemma decrypt_stable `{UnicodeData} (a : Cipher) (d : str) (cs : list call) :
  job_inv a -> decrypted_text a = Some d ->
  decrypt (fst (run cs a)) = Outcome (inr d) (fst (run cs a)) [].
Proof.
  intros Hi Ha. apply decrypt_cached.
  - now apply run_steps.
  - destruct (run_frame cs a) as [_ [_ Hd]]. now apply Hd.
Qed.

(** C8: on a job built by either constructor, over any sequence of calls
    each helper is invoked at most once.  In every state the job reaches:
    [encrypt()] returns a string, which [encrypted_text] holds after the
    call, and every later [encrypt()], whatever is called in between,
    returns that same string, invokes no helper and changes nothing; the
    call that finds the cache empty invokes [_encrypt] once, returns and
    stores what it computed and assigns nothing else, and a call that finds
    it filled returns its content untouched.  The same holds of [decrypt()],
    [decrypted_text] and [_decrypt] once the job is encrypted. *)
Theorem memoization `{UnicodeData} (job : Cipher) (cs : list call) :
  constructed job ->
  let self := fst (run cs job) in
  (times Helper_encrypt (snd (run cs job)) <= 1)%nat
  /\ (times Helper_decrypt (snd (run cs job)) <= 1)%nat
  /\ (exists s,
         returned (encrypt self) = inr s
         /\ encrypted_text (after (encrypt self)) = Some s
         /\ forall cs',
             let later := fst (run cs' (after (encrypt self))) in
             returned (encrypt later) = inr s
             /\ invoked (encrypt later) = []
             /\ after (encrypt later) = later
             /\ encrypted_text later = Some s)
  /\ (encrypted_text self = None ->
      exists s,
        _encrypt self = inr s
        /\ returned (encrypt self) = inr s
        /\ invoked (encrypt self) = [Helper_encrypt]
        /\ encrypted_text (after (encrypt self)) = Some s
        /\ decrypted_text (after (encrypt self)) = decrypted_text self
        /\ same_frame self (after (encrypt self)))
  /\ (forall s,
         encrypted_text self = Some s ->
         returned (encrypt self) = inr s
         /\ invoked (encrypt self) = []
         /\ after (encrypt self) = self)
  /\ (forall e,
         encrypted_text self = Some e ->
         exists d,
           returned (decrypt self) = inr d
           /\ decrypted_text (after (decrypt self)) = Some d
           /\ encrypted_text (after (decrypt self)) = Some e
           /\ forall cs',
               let later := fst (run cs' (after (decrypt self))) in
               returned (decrypt later) = inr d
               /\ invoked (decrypt later) = []
               /\ after (decrypt later) = later
               /\ decrypted_text later = Some d)
  /\ (forall e,
         encrypted_text self = Some e -> decrypted_text self = None ->
         exists d,
           _decrypt self = inr d
           /\ returned (decrypt self) = inr d
           /\ invoked (decrypt self) = [Helper_decrypt]
           /\ decrypted_text (after (decrypt self)) = Some d
           /\ encrypted_text (after (decrypt self)) = Some e
           /\ same_frame self (after (decrypt self)))
  /\ (forall d,
         decrypted_text self = Some d ->
         returned (decrypt self) = inr d
         /\ invoked (decrypt self) = []
         /\ after (decrypt self) = self).
Proof.
  intros Hc self.
  destruct (constructed_fresh job Hc) as [Hi [He0 Hd0]].
  destruct (run_steps cs job Hi) as [Hi' [_ [Hne Hnd]]]. fold self in Hi'.
  unfold pending_encrypt in Hne. unfold pending_decrypt in Hnd.
  rewrite He0 in Hne. rewrite Hd0 in Hnd.
  split; [exact Hne|]. split; [exact Hnd|].
  assert (L : forall a s cs',
             encrypted_text a = Some s ->
             returned (encrypt (fst (run cs' a))) = inr s
             /\ invoked (encrypt (fst (run cs' a))) = []
             /\ after (encrypt (fst (run cs' a))) = fst (run cs' a)
             /\ encrypted_text (fst (run cs' a)) = Some s).
  { intros a s cs' Ha. rewrite (encrypt_stable a s cs' Ha). simpl.
    repeat split. now apply run_frame. }
  assert (M : forall a d cs',
             job_inv a -> decrypted_text a = Some d ->
             returned (decrypt (fst (run cs' a))) = inr d
             /\ invoked (decrypt (fst (run cs' a))) = []
             /\ after (decrypt (fst (run cs' a))) = fst (run cs' a)
             /\ decrypted_text (fst (run cs' a)) = Some d).
  { intros a d cs' Ia Ha. rewrite (decrypt_stable a d cs' Ia Ha). simpl.
    repeat split. now apply run_frame. }
  pose proof (perform_frame Call_encrypt self) as [Fe [_ Fd]].
  pose proof (perform_frame Call_decrypt self) as [Gf [Ge _]].
  pose proof (perform_step Call_decrypt self Hi') as [Id _].
  cbn [perform] in Fe, Fd, Gf, Ge, Id.
  split; [|split; [|split; [|split; [|split]]]].
  - destruct (encrypted_text self) as [s|] eqn:Es.
    + exists s. rewrite (encrypt_cached self s Es). simpl.
      split; [reflexivity|]. split; [exact Es|].
      intros cs'. now apply L.
    + destruct (encrypt_first self Hi' Es) as [s [_ E]].
      exists s. rewrite E. simpl.
      split; [reflexivity|]. split; [reflexivity|].
      intros cs'. now apply L.
  - intros Es. destruct (encrypt_first self Hi' Es) as [s [Hs E]].
    exists s. split; [exact Hs|]. rewrite E in *. simpl in *.
    repeat split; try reflexivity; apply Fe.
  - intros s Es. rewrite (encrypt_cached self s Es). simpl. repeat split.
  - intros e Es. destruct (decrypted_text self) as [d|] eqn:Ed.
    + exists d. rewrite (decrypt_cached self d Hi' Ed). simpl.
      split; [reflexivity|]. split; [exact Ed|]. split; [exact Es|].
      intros cs'. now apply M.
    + destruct (decrypt_first self e Hi' Es Ed) as [d [_ E]].
      exists d. rewrite E in *. simpl in *.
      split; [reflexivity|]. split; [reflexivity|]. split; [exact Es|].
      intros cs'. now apply M.
  - intros e Es Ed. destruct (decrypt_first self e Hi' Es Ed) as [d [Hd E]].
    exists d. split; [exact Hd|]. rewrite E in *. simpl in *.
    repeat split; try reflexivity; try exact Es; apply Gf.
  - intros d Ed. rewrite (decrypt_cached self d Hi' Ed). simpl. repeat split.
Qed.

Lemma memoization_witness :
  constructed (Cipher_init Caesar_class 3 (of_string "ab"))
  /\ (times Helper_encrypt
        (snd (@run latin1_only [Call_encrypt; Call_encrypt; Call_decrypt; Call_encrypt]
                (Cipher_init Caesar_class 3 (of_string "ab")))) <= 1)%nat
  /\ exists d,
      returned
        (@decrypt latin1_only
           (fst (@run latin1_only [Call_encrypt; Call_encrypt; Call_decrypt; Call_encrypt]
                   (Cipher_init Caesar_class 3 (of_string "ab")))))
      = inr d
      /\ d = of_string "ab"
      /\ returned
           (@decrypt latin1_only
              (fst (@run latin1_only [Call_get_text; Call_encrypt]
                      (after
                         (@decrypt latin1_only
                            (fst (@run latin1_only
                                    [Call_encrypt; Call_encrypt; Call_decrypt; Call_encrypt]
                                    (Cipher_init Caesar_class 3 (of_string "ab")))))))))
         = inr d.
Proof.
  assert (Hc : constructed (Cipher_init Caesar_class 3 (of_string "ab"))).
  { exists (VInt 3), (of_string "ab"). left. reflexivity. }
  split; [exact Hc|].
  destruct (@memoization latin1_only _
              [Call_encrypt; Call_encrypt; Call_decrypt; Call_encrypt] Hc)
    as [Hn [_ [_ [_ [_ [Hd _]]]]]].
  split; [exact Hn|].
  destruct (Hd (of_string "de") eq_refl) as [d [Hr [Hs [_ Hl]]]].
  exists d. split; [exact Hr|]. split.
  - simpl in Hs. now injection Hs as <-.
  - destruct (Hl [Call_get_text; Call_encrypt]) as [Hl1 _]. exact Hl1.
Defined.
